(** * beads_yolo_runner: backlog walker, task executor and run loop

    A shallow embedding of [src/beads_yolo_runner.py] and the properties
    of its three components: the two leaf-selection functions
    ([select_first_open_leaf_task], [select_first_open_leaf_task_id]),
    the executor [run_once] and the driving loop [run_loop]. *)

From Stdlib Require Import ZArith List String Bool Lia Sorted Permutation.
Import ListNotations.
Local Open Scope string_scope.
Local Open Scope Z_scope.
Local Open Scope list_scope.

Local Set Warnings "-register-all".

(** ** Data model *)

(** An issue dict as the walkers read it.  Each field is the value of
    [item.get(<key>)]: [None] stands for a missing key.  [children] is
    [item.get("children", [])], so a missing key is the empty list. *)
Inductive node : Type :=
  mkNode (node_id : option string)
         (status : option string)
         (issue_type : option string)
         (priority : option Z)
         (children : list node).

Definition node_id (n : node) : option string :=
  let 'mkNode i _ _ _ _ := n in i.
Definition status (n : node) : option string :=
  let 'mkNode _ s _ _ _ := n in s.
Definition issue_type (n : node) : option string :=
  let 'mkNode _ _ t _ _ := n in t.
Definition priority (n : node) : option Z :=
  let 'mkNode _ _ _ p _ := n in p.
Definition children (n : node) : list node :=
  let 'mkNode _ _ _ _ c := n in c.

(** [item.get(key) == "literal"] on an optional string. *)
Definition is_str (v : option string) (lit : string) : bool :=
  match v with
  | Some s => String.eqb s lit
  | None => false
  end.

(** Python truthiness of a [str | None] value: [None] and the empty
    string are falsy. *)
Definition truthy (v : option string) : bool :=
  match v with
  | Some s => negb (String.eqb s "")
  | None => false
  end.

(** ** Priority order: [sorted(items, key=lambda item: item.get("priority", 999))] *)

Definition sort_key (n : node) : Z :=
  match priority n with
  | Some p => p
  | None => 999
  end.

(** [sorted] is stable: an element goes in front of the first element whose
    key is not smaller, so equal keys keep their input order. *)
Fixpoint insert_by_key (x : node) (l : list node) : list node :=
  match l with
  | [] => [x]
  | y :: l' =>
      if sort_key x <=? sort_key y then x :: y :: l'
      else y :: insert_by_key x l'
  end.

Fixpoint sorted_items (items : list node) : list node :=
  match items with
  | [] => []
  | x :: rest => insert_by_key x (sorted_items rest)
  end.

(** ** Results of a run *)

(** A call either returns, raises (an exception that nothing catches: of a
    collaborator, or the interpreter's [RecursionError]), or, for the
    [while True] of [run_loop], is still running when the iterations looked
    at are used up. *)
Inductive result (A : Type) : Type :=
| Ok (a : A)
| Raised
| OutOfFuel.
Arguments Ok {A} a.
Arguments Raised {A}.
Arguments OutOfFuel {A}.

(** ** The materialized-tree walker *)

(** [find_leaf] of [select_first_open_leaf_task].  The source recurses
    without a bound of its own, and the interpreter raises [RecursionError]
    at the level that would exceed its recursion limit: [limit] is the number
    of nested [find_leaf] calls that the interpreter still allows (what
    [sys.getrecursionlimit()], 1000 unless changed, leaves given the frames
    in use).  The inner [scan] is the [for] loop over the sorted items. *)
Fixpoint find_leaf (limit : nat) (items : list node) : result (option string) :=
  match limit with
  | O => Raised
  | S limit' =>
      (fix scan (l : list node) : result (option string) :=
         match l with
         | [] => Ok None
         | item :: rest =>
             if negb (is_str (status item) "open") then scan rest
             else if is_str (issue_type item) "epic" then
               match children item with
               | [] => scan rest
               | _ :: _ =>
                   match find_leaf limit' (children item) with
                   | Ok leaf => if truthy leaf then Ok leaf else scan rest
                   | Raised => Raised
                   | OutOfFuel => OutOfFuel
                   end
               end
             else if is_str (issue_type item) "task" then Ok (node_id item)
             else scan rest
         end) (sorted_items items)
  end.

Definition select_first_open_leaf_task (limit : nat) (tree : list node)
  : result (option string) :=
  find_leaf limit tree.

(** ** Collaborators *)

(** [json.loads(command_runner(["bd", "show", id, "--json"]))[0]] is read
    through [.get] on these keys only. *)
Record task_record : Type := mkRecord {
  rec_title : option string;
  rec_description : option string;
  rec_acceptance_criteria : option string;
  rec_status : option string
}.

(** The dict that [log_completion] writes as one JSON line. *)
Record log_entry : Type := mkEntry {
  timestamp : string;
  issue_id : string;
  title : string;
  log_status : string;
  commit_sha : string
}.

(** What a run does to the outside, in order.  Every call of an injected
    callable is one event carrying what it was given and how it ended
    ([None] and [false]: it raised); the audit log and the console are
    output only, so a line written there is an event too. *)
Inductive event : Type :=
| Ran (cmd : list string) (out : option string)
| Called (cmd : list string) (ok : bool)
| Dispatched (cmd : list string) (ok : bool)
| Logged (e : log_entry)
| Printed (text : string).

(** Everything [run_once] is given or imports.  [W] is the state of the
    consumed collaborators (backlog store, working tree, version control,
    agent, clock).  [command_runner] is [subprocess.check_output],
    [call_runner] and [opencode_runner] are [subprocess.check_call] unless
    injected; [opencode_runner] stands for the whole [with] block around the
    agent (transcript file, [build_opencode_env], the process itself).
    [json_items] and [json_records] are [json.loads] at the two shapes the
    code reads, [strip] and [lower] the [str] methods. *)
Record Env : Type := mkEnv {
  W : Type;
  command_runner : list string -> W -> option string * W;
  call_runner : list string -> W -> bool * W;
  opencode_runner : list string -> W -> bool * W;
  date_output : W -> string;
  elapsed_text : W -> W -> string;
  json_items : string -> option (list node);
  json_records : string -> option (list task_record);
  strip : string -> string;
  lower : string -> string
}.

(** ** The monad of a run: collaborator state, exceptions, emitted events *)

Section Run.
Variable E : Env.

Definition M (A : Type) : Type := W E -> result A * W E * list event.

Definition ret {A} (a : A) : M A := fun w => (Ok a, w, []).

Definition bind {A B} (m : M A) (k : A -> M B) : M B :=
  fun w =>
    let '(r, w1, e1) := m w in
    match r with
    | Ok a => let '(r2, w2, e2) := k a w1 in (r2, w2, e1 ++ e2)
    | Raised => (Raised, w1, e1)
    | OutOfFuel => (OutOfFuel, w1, e1)
    end.

Definition raise {A} : M A := fun w => (Raised, w, []).

Notation "x <- m ;; k" := (bind m (fun x => k))
  (at level 61, m at next level, right associativity).
Notation "m ;; k" := (bind m (fun _ => k))
  (at level 61, right associativity).

(** [command_runner(cmd, text=True)] *)
Definition run_command (cmd : list string) : M string :=
  fun w =>
    let '(out, w') := command_runner E cmd w in
    (match out with Some s => Ok s | None => Raised end, w', [Ran cmd out]).

(** [call_runner(cmd)] *)
Definition run_call (cmd : list string) : M unit :=
  fun w =>
    let '(ok, w') := call_runner E cmd w in
    ((if ok then Ok tt else Raised), w', [Called cmd ok]).

Definition print (text : string) : M unit :=
  fun w => (Ok tt, w, [Printed text]).

(** The timed [with opencode_log.open("w")] block of [run_once] and the
    [print] after it. *)
Definition run_agent (command : list string) : M unit :=
  fun w =>
    let '(ok, w') := opencode_runner E command w in
    if ok then
      (Ok tt, w',
       [Dispatched command true;
        Printed ("OpenCode finished in " ++ elapsed_text E w w' ++ "s")%string])
    else (Raised, w', [Dispatched command false]).

(** [log_completion]; the file that [log_path] names is not modelled, the
    entries written and their order are. *)
Definition log_completion (issue : string) (ttl : string) (sha : string)
  (st : string) : M unit :=
  fun w =>
    (Ok tt, w,
     [Logged {| timestamp := strip E (date_output E w);
                issue_id := issue;
                title := ttl;
                log_status := st;
                commit_sha := sha |}]).

(** ** The id-based walker *)

Definition ready_cmd (parent_id : string) : list string :=
  ["bd"; "ready"; "--parent"; parent_id; "--json"].

Definition load_children (parent_id : string) : M (list node) :=
  output <- run_command (ready_cmd parent_id) ;;
  match json_items E output with
  | Some items => ret items
  | None => raise
  end.

(** [walk] of [select_first_open_leaf_task_id]; [limit] is the number of
    nested [walk] calls that the interpreter still allows, as for
    [find_leaf]: the level that would exceed it raises [RecursionError].
    A level of [walk] needs frames for [load_children], the runner and
    [json.loads] where a level of [find_leaf] needs one for the sort key, so
    the limits of the two walkers differ.  Where in the level that has no
    room left the error surfaces (on entry, in [load_children], in the
    runner, in [json.loads]) depends on the runner; here it is on entry. *)
Fixpoint walk (limit : nat) (parent_id : string) : M (option string) :=
  match limit with
  | O => raise
  | S limit' =>
      items <- load_children parent_id ;;
      (fix scan (l : list node) : M (option string) :=
         match l with
         | [] => ret None
         | item :: rest =>
             if negb (is_str (status item) "open") then scan rest
             else
               match node_id item with
               | None => scan rest
               | Some issue_id =>
                   if String.eqb issue_id "" then scan rest
                   else if is_str (issue_type item) "task" then
                     ret (Some issue_id)
                   else if is_str (issue_type item) "epic" then
                     leaf <- walk limit' issue_id ;;
                     if truthy leaf then ret leaf else scan rest
                   else scan rest
               end
         end) (sorted_items items)
  end.

Definition select_first_open_leaf_task_id (limit : nat) (root_id : string)
  : M (option string) :=
  walk limit root_id.

(** ** The executor *)

Definition build_opencode_command (repo_root prompt : string) : list string :=
  ["opencode"; "run"; prompt; "--agent"; "yolo"; "--format"; "json"; repo_root].

Definition build_opencode_prompt (issue title description acceptance : string)
  : string :=
  ("You are in YOLO mode - all permissions granted.

Your task is: " ++ issue ++ " - " ++ title ++ "

**Description:**
" ++ description ++ "

**Acceptance Criteria:**
" ++ acceptance ++ "

**Strict TDD Protocol:**
1. Write failing tests based on acceptance criteria
2. Run tests to confirm they fail
3. Write minimal implementation to pass each test
4. Run tests and ensure all pass
5. Do not modify unrelated files
6. If tests fail, fix and rerun

**Rules:**
- NEVER write implementation code before a failing test exists
- Watch test fail before writing code
- Write minimal code to pass each test
- Do not modify unrelated files
- Use real code, not mocks unless unavoidable
- All tests must pass before marking task complete

Start now by analyzing the codebase and writing your first failing test.
")%string.

Definition show_cmd (leaf_id : string) : list string :=
  ["bd"; "show"; leaf_id; "--json"].
Definition update_cmd (leaf_id st : string) : list string :=
  ["bd"; "update"; leaf_id; "--status"; st].
Definition close_cmd (leaf_id : string) : list string :=
  ["bd"; "close"; leaf_id].
Definition git_add_cmd : list string := ["git"; "add"; "."].
Definition git_status_cmd : list string := ["git"; "status"; "--porcelain"].
Definition rev_parse_cmd : list string := ["git"; "rev-parse"; "HEAD"].
Definition commit_cmd (message : string) : list string :=
  ["git"; "commit"; "-m"; message].
Definition sync_cmd : list string := ["bd"; "sync"].

(** [json.loads(output)[0]]: no parse or an empty list raises. *)
Definition first_record (output : string) : M task_record :=
  match json_records E output with
  | Some (r :: _) => ret r
  | _ => raise
  end.

(** [d.get(key, "")] *)
Definition get_or_empty (v : option string) : string :=
  match v with
  | Some s => s
  | None => ""
  end.

Definition run_once (limit : nat) (repo_root root_id : string)
  (dry_run : bool) : M string :=
  leaf <- select_first_open_leaf_task_id limit root_id ;;
  match leaf with
  | None => ret "no_tasks"
  | Some leaf_id =>
      if String.eqb leaf_id "" then ret "no_tasks"
      else
        output <- run_command (show_cmd leaf_id) ;;
        task_data <- first_record output ;;
        let title := get_or_empty (rec_title task_data) in
        let description := get_or_empty (rec_description task_data) in
        let acceptance := get_or_empty (rec_acceptance_criteria task_data) in
        let prompt := build_opencode_prompt leaf_id title description acceptance in
        let command := build_opencode_command repo_root prompt in
        if dry_run then
          print ("Task: " ++ leaf_id ++ " - " ++ title)%string ;;
          print prompt ;;
          print ("Command: " ++ String.concat " " command)%string ;;
          ret "dry_run"
        else
          run_call (update_cmd leaf_id "in_progress") ;;
          print ("Starting " ++ leaf_id ++ ": " ++ title)%string ;;
          run_agent command ;;
          run_call git_add_cmd ;;
          status_output <- run_command git_status_cmd ;;
          if String.eqb (strip E status_output) "" then
            head_output <- run_command rev_parse_cmd ;;
            let commit_sha := strip E head_output in
            log_completion leaf_id title commit_sha "blocked" ;;
            run_call (update_cmd leaf_id "blocked") ;;
            ret "blocked"
          else
            let commit_message :=
              if String.eqb title "" then "feat: complete bead task"
              else ("feat: " ++ lower E title)%string in
            run_call (commit_cmd commit_message) ;;
            head_output <- run_command rev_parse_cmd ;;
            let commit_sha := strip E head_output in
            log_completion leaf_id title commit_sha "completed" ;;
            run_call (close_cmd leaf_id) ;;
            shown <- run_command (show_cmd leaf_id) ;;
            closed <- first_record shown ;;
            if negb (is_str (rec_status closed) "closed") then
              log_completion leaf_id title commit_sha "blocked" ;;
              run_call (update_cmd leaf_id "blocked") ;;
              ret "blocked"
            else
              run_call sync_cmd ;;
              ret "completed"
  end.

(** ** The run loop *)

(** One call of [run_once_runner]: how it ended and what it did. *)
Definition iteration : Type := (result string * list event)%type.

(** The [while True] of [run_loop], entered with the counter at
    [completed]; [fuel] bounds the number of iterations. *)
Fixpoint run_loop_from (fuel : nat)
  (run_once_runner : string -> string -> bool -> M string)
  (repo_root : string) (max_tasks : option Z) (root_id : string)
  (dry_run : bool) (completed : Z) (w : W E)
  : result Z * W E * list iteration :=
  match fuel with
  | O => (OutOfFuel, w, [])
  | S fuel' =>
      if match max_tasks with
         | Some n => n <=? completed
         | None => false
         end
      then (Ok completed, w, [])
      else
        let '(r, w1, evs) := run_once_runner repo_root root_id dry_run w in
        match r with
        | Ok outcome =>
            if String.eqb outcome "no_tasks" then (Ok completed, w1, [(r, evs)])
            else
              let completed' :=
                if String.eqb outcome "completed" then completed + 1
                else completed in
              if String.eqb outcome "dry_run" then
                (Ok completed', w1, [(r, evs)])
              else
                let '(r2, w2, its) :=
                  run_loop_from fuel' run_once_runner repo_root max_tasks
                    root_id dry_run completed' w1 in
                (r2, w2, (r, evs) :: its)
        | Raised => (Raised, w1, [(r, evs)])
        | OutOfFuel => (OutOfFuel, w1, [(r, evs)])
        end
  end.

Definition run_loop (fuel : nat)
  (run_once_runner : string -> string -> bool -> M string)
  (repo_root : string) (max_tasks : option Z) (root_id : string)
  (dry_run : bool) : W E -> result Z * W E * list iteration :=
  run_loop_from fuel run_once_runner repo_root max_tasks root_id dry_run 0.

End Run.

(** ** Trees, depth and what a store presents *)

(** A node and everything below it, parents first. *)
Fixpoint subnodes (n : node) : list node :=
  n :: flat_map subnodes (children n).

Definition forest_nodes (tree : list node) : list node :=
  flat_map subnodes tree.

(** Number of levels of a forest: enough nested calls to walk it. *)
Fixpoint node_depth (n : node) : nat :=
  S (fold_right (fun c d => Nat.max (node_depth c) d) 0%nat (children n)).

Definition forest_depth (tree : list node) : nat :=
  fold_right (fun c d => Nat.max (node_depth c) d) 0%nat tree.

(** The ids that occur in a forest. *)
Definition present_ids (tree : list node) : list string :=
  flat_map (fun n => match node_id n with Some i => [i] | None => [] end)
           (forest_nodes tree).

Definition is_open_task (n : node) : Prop :=
  status n = Some "open" /\ issue_type n = Some "task".

(** An item of a [bd ready] answer shows a node of the tree: the walker
    reads these four keys and nothing else. *)
Definition shown_as (item n : node) : Prop :=
  node_id item = node_id n /\ status item = status n /\
  issue_type item = issue_type n /\ priority item = priority n.

(** The store in state [w] presents the forest [level] under [parent]:
    asked for the children of [parent] it answers, without changing, with
    items that show [level], and it presents the children of every open epic
    of [level] under that epic's id. *)
Inductive presents (E : Env) (w : W E) : string -> list node -> Prop :=
| presents_level (parent out : string) (items level : list node) :
    command_runner E (ready_cmd parent) w = (Some out, w) ->
    json_items E out = Some items ->
    Forall2 shown_as items level ->
    Forall (fun n =>
              is_str (status n) "open" = true ->
              is_str (issue_type n) "epic" = true ->
              forall i, node_id n = Some i -> i <> "" ->
                        presents E w i (children n)) level ->
    presents E w parent level.

(** Every open epic and every open task of the forest has a non-empty id. *)
Definition ids_usable (tree : list node) : Prop :=
  forall n, In n (forest_nodes tree) ->
            is_str (status n) "open" = true ->
            is_str (issue_type n) "epic" = true \/
            is_str (issue_type n) "task" = true ->
            truthy (node_id n) = true.

(** ** The two scans, named *)

(** The [for] loop of [find_leaf] when [limit'] nested calls are left. *)
Definition find_leaf_scan (limit' : nat) : list node -> result (option string) :=
  fix scan (l : list node) : result (option string) :=
    match l with
    | [] => Ok None
    | item :: rest =>
        if negb (is_str (status item) "open") then scan rest
        else if is_str (issue_type item) "epic" then
          match children item with
          | [] => scan rest
          | _ :: _ =>
              match find_leaf limit' (children item) with
              | Ok leaf => if truthy leaf then Ok leaf else scan rest
              | Raised => Raised
              | OutOfFuel => OutOfFuel
              end
          end
        else if is_str (issue_type item) "task" then Ok (node_id item)
        else scan rest
    end.

(** The [for] loop of [walk] when [limit'] nested calls are left. *)
Definition walk_scan (E : Env) (limit' : nat) : list node -> M E (option string) :=
  fix scan (l : list node) : M E (option string) :=
    match l with
    | [] => ret E None
    | item :: rest =>
        if negb (is_str (status item) "open") then scan rest
        else
          match node_id item with
          | None => scan rest
          | Some issue_id =>
              if String.eqb issue_id "" then scan rest
              else if is_str (issue_type item) "task" then
                ret E (Some issue_id)
              else if is_str (issue_type item) "epic" then
                bind E (walk E limit' issue_id)
                     (fun leaf => if truthy leaf then ret E leaf else scan rest)
              else scan rest
          end
    end.

(** ** Reading a trace *)

Definition is_ready_query (ev : event) : Prop :=
  exists parent out, ev = Ran (ready_cmd parent) out.

(** The items the store reported in answer to the [bd ready] queries. *)
Definition reported (E : Env) (evs : list event) : list node :=
  flat_map (fun ev =>
              match ev with
              | Ran ["bd"; "ready"; "--parent"; _; "--json"] (Some out) =>
                  match json_items E out with
                  | Some items => items
                  | None => []
                  end
              | _ => []
              end) evs.

(** The entries written to the audit log, in order. *)
Definition logged (evs : list event) : list log_entry :=
  flat_map (fun ev => match ev with Logged e => [e] | _ => [] end) evs.


Definition is_commit (cmd : list string) : bool :=
  match cmd with
  | a :: b :: _ => String.eqb a "git" && String.eqb b "commit"
  | _ => false
  end.

(** The trace [evs] is what was done to the collaborators from state [w]
    to state [w']: every command of the trace was run, in this order, on
    the state the one before had left, with the recorded outcome. *)
Inductive plays (E : Env) : W E -> list event -> W E -> Prop :=
| plays_nil (w : W E) : plays E w [] w
| plays_ran (w w1 w' : W E) (cmd : list string) (out : option string)
            (evs : list event) :
    command_runner E cmd w = (out, w1) -> plays E w1 evs w' ->
    plays E w (Ran cmd out :: evs) w'
| plays_called (w w1 w' : W E) (cmd : list string) (ok : bool)
               (evs : list event) :
    call_runner E cmd w = (ok, w1) -> plays E w1 evs w' ->
    plays E w (Called cmd ok :: evs) w'
| plays_dispatched (w w1 w' : W E) (cmd : list string) (ok : bool)
                   (evs : list event) :
    opencode_runner E cmd w = (ok, w1) -> plays E w1 evs w' ->
    plays E w (Dispatched cmd ok :: evs) w'
| plays_logged (w w' : W E) (e : log_entry) (evs : list event) :
    plays E w evs w' -> plays E w (Logged e :: evs) w'
| plays_printed (w w' : W E) (text : string) (evs : list event) :
    plays E w evs w' -> plays E w (Printed text :: evs) w'.



(** [head w] is the head revision in state [w]: it is what
    [git rev-parse HEAD] prints there. *)
Definition reports_head (E : Env) (head : W E -> string) : Prop :=
  forall w out w',
    command_runner E rev_parse_cmd w = (Some out, w') -> strip E out = head w.

(** The agent and the commands that [run_once] issues before it logs a run
    without changes leave the head revision where it was. *)
Record head_kept (E : Env) (head : W E -> string) : Prop := {
  ready_keeps_head : forall parent w,
    head (snd (command_runner E (ready_cmd parent) w)) = head w;
  show_keeps_head : forall leaf w,
    head (snd (command_runner E (show_cmd leaf) w)) = head w;
  status_keeps_head : forall w,
    head (snd (command_runner E git_status_cmd w)) = head w;
  rev_parse_keeps_head : forall w,
    head (snd (command_runner E rev_parse_cmd w)) = head w;
  update_keeps_head : forall leaf st w,
    head (snd (call_runner E (update_cmd leaf st) w)) = head w;
  add_keeps_head : forall w,
    head (snd (call_runner E git_add_cmd w)) = head w;
  agent_keeps_head : forall cmd w,
    head (snd (opencode_runner E cmd w)) = head w
}.

(** [status_of w id] is the status of task [id] in the store in state [w]:
    a [bd update <id> --status <st>] that returns has set it to [st]. *)
Definition store_contract (E : Env)
  (status_of : W E -> string -> option string) : Prop :=
  forall w leaf st w',
    call_runner E (update_cmd leaf st) w = (true, w') ->
    status_of w' leaf = Some st.


(** Number of ["completed"] outcomes among the calls of the executor. *)
Fixpoint count_completed (its : list iteration) : Z :=
  match its with
  | [] => 0
  | (Ok outcome, _) :: its' =>
      (if String.eqb outcome "completed" then 1 else 0) + count_completed its'
  | _ :: its' => count_completed its'
  end.

(** ** Concrete stores used as instances *)

(** A store that reports every parent as having one open epic child whose
    id is ["root"]: the children-of relation has a cycle. *)
Definition cyclic_store : Env := {|
  W := unit;
  command_runner := fun _ w => (Some "", w);
  call_runner := fun _ w => (true, w);
  opencode_runner := fun _ w => (true, w);
  date_output := fun _ => "";
  elapsed_text := fun _ _ => "";
  json_items := fun _ =>
    Some [mkNode (Some "root") (Some "open") (Some "epic") None []];
  json_records := fun _ => None;
  strip := fun s => s;
  lower := fun s => s
|}.

(** The children of the first node of [tree] whose id is [parent]. *)
Definition children_in (tree : list node) (parent : string) : list node :=
  match find (fun n => is_str (node_id n) parent) (forest_nodes tree) with
  | Some n => children n
  | None => []
  end.

(** A read-only store holding [tree] under [root]: [bd ready --parent p]
    prints [p], which parses to the children of [p]. *)
Definition tree_store (root : string) (tree : list node) : Env := {|
  W := unit;
  command_runner := fun cmd w =>
    match cmd with
    | [_; _; _; parent; _] => (Some parent, w)
    | _ => (None, w)
    end;
  call_runner := fun _ w => (false, w);
  opencode_runner := fun _ w => (false, w);
  date_output := fun _ => "";
  elapsed_text := fun _ _ => "";
  json_items := fun out =>
    Some (if String.eqb out root then tree else children_in tree out);
  json_records := fun _ => None;
  strip := fun s => s;
  lower := fun s => s
|}.

(** A repository with one task ["t1"] under ["root"], an agent that edits
    the working tree or not, and a store whose [close] sticks or not. *)
Module Demo.

Record world : Type := mkWorld {
  task_status : string;
  dirty : bool;
  head_rev : string;
  agent_edits : bool;
  close_sticks : bool
}.

Definition set_status (s : string) (w : world) : world :=
  {| task_status := s; dirty := dirty w; head_rev := head_rev w;
     agent_edits := agent_edits w; close_sticks := close_sticks w |}.

Definition set_dirty (d : bool) (w : world) : world :=
  {| task_status := task_status w; dirty := d; head_rev := head_rev w;
     agent_edits := agent_edits w; close_sticks := close_sticks w |}.

Definition commit (w : world) : world :=
  {| task_status := task_status w; dirty := false;
     head_rev := (head_rev w ++ "+1")%string;
     agent_edits := agent_edits w; close_sticks := close_sticks w |}.

Definition answer (cmd : list string) (w : world) : option string :=
  match cmd with
  | ["bd"; "ready"; "--parent"; _; "--json"] =>
      Some (if String.eqb (task_status w) "open" then "open" else "")
  | ["bd"; "show"; _; "--json"] => Some (task_status w)
  | ["git"; "status"; "--porcelain"] =>
      Some (if dirty w then " M parser.py" else "")
  | ["git"; "rev-parse"; "HEAD"] => Some (head_rev w)
  | _ => None
  end.

Definition store_call (cmd : list string) (w : world) : bool * string :=
  match cmd with
  | ["bd"; "update"; _; "--status"; s] => (true, s)
  | ["bd"; "close"; _] =>
      (true, if close_sticks w then "closed" else task_status w)
  | ["bd"; "sync"] => (true, task_status w)
  | ["git"; "add"; "."] => (true, task_status w)
  | _ => (false, task_status w)
  end.

Definition env : Env := {|
  W := world;
  command_runner := fun cmd w => (answer cmd w, w);
  call_runner := fun cmd w =>
    if is_commit cmd then (true, commit w)
    else let '(ok, s) := store_call cmd w in (ok, set_status s w);
  opencode_runner := fun _ w => (true, set_dirty (agent_edits w) w);
  date_output := fun _ => "2026-01-01T00:00:00Z";
  elapsed_text := fun _ _ => "0.0";
  json_items := fun out =>
    if String.eqb out "" then Some []
    else Some [mkNode (Some "t1") (Some out) (Some "task") (Some 1) []];
  json_records := fun out =>
    Some [mkRecord (Some "parser") (Some "parse it") (Some "it parses")
                   (Some out)];
  strip := fun s => s;
  lower := fun s => s
|}.

(** One open task, a clean tree at revision ["c0"]. *)
Definition start (edits sticks : bool) : world :=
  {| task_status := "open"; dirty := false; head_rev := "c0";
     agent_edits := edits; close_sticks := sticks |}.

(** An executor that reports ["completed"] whatever the state. *)
Definition always_completed : string -> string -> bool -> M env string :=
  fun _ _ _ => ret env "completed".

End Demo.

(** The repository of [Demo] with an agent that commits its own work and
    leaves a clean working tree. *)
Definition committing_agent : Env := {|
  W := Demo.world;
  command_runner := command_runner Demo.env;
  call_runner := call_runner Demo.env;
  opencode_runner := fun _ w => (true, Demo.commit w);
  date_output := date_output Demo.env;
  elapsed_text := elapsed_text Demo.env;
  json_items := json_items Demo.env;
  json_records := json_records Demo.env;
  strip := strip Demo.env;
  lower := lower Demo.env
|}.

(** The one task of [Demo] has the status of the store, whatever its id. *)
Definition demo_status_of (w : Demo.world) (leaf : string) : option string :=
  Some (Demo.task_status w).

(** [n] open epics, one inside the other, around an open task ["t"]. *)
Fixpoint epic_chain (n : nat) : list node :=
  match n with
  | O => [mkNode (Some "t") (Some "open") (Some "task") None []]
  | S n' => [mkNode (Some "e") (Some "open") (Some "epic") None (epic_chain n')]
  end.

(** Ascending order of the sort key. *)
Definition key_le (a b : node) : Prop := sort_key a <= sort_key b.

(** Three open tasks: one without priority, one ranked 1000, one ranked 2. *)
Definition unranked_a : node :=
  mkNode (Some "a") (Some "open") (Some "task") None [].
Definition ranked_b : node :=
  mkNode (Some "b") (Some "open") (Some "task") (Some 1000) [].
Definition ranked_c : node :=
  mkNode (Some "c") (Some "open") (Some "task") (Some 2) [].

(** An open epic ranked 2 holding a closed and an open task, beside an open
    task ranked 3. *)
Definition sample_tree : list node :=
  [mkNode (Some "t4") (Some "open") (Some "task") (Some 3) [];
   mkNode (Some "e1") (Some "open") (Some "epic") (Some 2)
     [mkNode (Some "t2") (Some "closed") (Some "task") (Some 1) [];
      mkNode (Some "t3") (Some "open") (Some "task") (Some 5) []]].

(** The store reports every id with one status and one type. *)
Definition consistent (items : list node) : Prop :=
  forall a b, In a items -> In b items -> node_id a = node_id b ->
              status a = status b /\ issue_type a = issue_type b.

(** The scan of [find_leaf] passes over [p] when [limit'] nested calls are
    left: [p] is not open, or an epic without children, or an epic whose
    subtree gives nothing truthy, or neither epic nor task. *)
Definition yields_nothing (limit' : nat) (p : node) : Prop :=
  is_str (status p) "open" = false \/
  (is_str (issue_type p) "epic" = true /\
   (children p = [] \/
    exists leaf, find_leaf limit' (children p) = Ok leaf /\
                 truthy leaf = false)) \/
  (is_str (issue_type p) "epic" = false /\
   is_str (issue_type p) "task" = false).

(** An open task without id ranked 1 before an open task ["b"] ranked 2. *)
Definition idless_first : list node :=
  [mkNode (Some "b") (Some "open") (Some "task") (Some 2) [];
   mkNode None (Some "open") (Some "task") (Some 1) []].


(** ** More instances and readings of a run *)

(** A closed epic holding an open task. *)
Definition closed_parent : list node :=
  [mkNode (Some "e") (Some "closed") (Some "epic") (Some 1)
     [mkNode (Some "t") (Some "open") (Some "task") (Some 1) []]].

(** What the scan of [walk] passes over without a query: an item that is
    not open, has no usable id, or is neither task nor epic. *)
Definition passed_without_query (n : node) : bool :=
  negb (is_str (status n) "open")
  || negb (truthy (node_id n))
  || (negb (is_str (issue_type n) "task")
      && negb (is_str (issue_type n) "epic")).

(** A closed task, a task without id and an open task ["c"]. *)
Definition mixed_answer : list node :=
  [mkNode (Some "c") (Some "open") (Some "task") (Some 7) [];
   mkNode None (Some "open") (Some "task") (Some 2) [];
   mkNode (Some "a") (Some "closed") (Some "task") (Some 1) []].



(** The [git commit] commands of a trace. *)
Definition commits (evs : list event) : list event :=
  filter (fun ev => match ev with
                    | Called cmd _ => is_commit cmd
                    | _ => false
                    end) evs.

(** The commit message [run_once] derives from a title. *)
Definition commit_message_for (E : Env) (ttl : string) : string :=
  if String.eqb ttl "" then "feat: complete bead task"
  else ("feat: " ++ lower E ttl)%string.


(** An executor that reports ["blocked"] whatever the state. *)
Definition always_blocked : string -> string -> bool -> M Demo.env string :=
  fun _ _ _ => ret Demo.env "blocked".

(** An executor that raises whatever the state. *)
Definition always_raising : string -> string -> bool -> M Demo.env string :=
  fun _ _ _ => raise Demo.env.

(** ** The environment of the agent: [build_opencode_env] *)

(** A [dict[str, str]]: keys in insertion order, each key once. *)
Definition dict : Type := list (string * string).

(** [d.get(key)] *)
Fixpoint dict_get (d : dict) (key : string) : option string :=
  match d with
  | [] => None
  | (k, v) :: d' => if String.eqb k key then Some v else dict_get d' key
  end.

(** [d[key] = value]: an existing key keeps its place. *)
Fixpoint dict_set (d : dict) (key value : string) : dict :=
  match d with
  | [] => [(key, value)]
  | (k, v) :: d' =>
      if String.eqb k key then (key, value) :: d'
      else (k, v) :: dict_set d' key value
  end.

(** What [build_opencode_env] does to the file system, in order; [false]
    and [None]: the call raised. *)
Inductive fs_event : Type :=
| MadeDir (path : string) (ok : bool)
| Tested (path : string) (answer : option bool)
| Wrote (path content : string) (ok : bool).

(** The [pathlib] calls of [build_opencode_env] on a file system in state
    [FS]; a path is given by its [str].  [path_exists] is [Path.exists()]:
    it answers, or raises ([None]) on an [OSError] that it does not take
    for an absent file. *)
Record Files : Type := mkFiles {
  FS : Type;
  mkdir_parents : string -> FS -> bool * FS;
  path_exists : string -> FS -> option bool;
  write_text : string -> string -> FS -> bool * FS;
  joinpath : string -> string -> string
}.

Section BuildEnv.
Variable F : Files.

(** [path.mkdir(parents=True, exist_ok=True)] *)
Definition make_dir (path : string) (fs : FS F)
  : result unit * FS F * list fs_event :=
  let '(ok, fs') := mkdir_parents F path fs in
  ((if ok then Ok tt else Raised), fs', [MadeDir path ok]).

Definition flagged (env : dict) : dict :=
  let env := dict_set env "OPENCODE_DISABLE_CLAUDE_CODE" "true" in
  let env := dict_set env "OPENCODE_DISABLE_CLAUDE_CODE_SKILLS" "true" in
  let env := dict_set env "OPENCODE_DISABLE_CLAUDE_CODE_PROMPT" "true" in
  let env := dict_set env "OPENCODE_DISABLE_DEFAULT_PLUGINS" "true" in
  dict_set env "CI" "true".

(** [build_opencode_env(base_env, config_root, config_dir)], in a process
    whose [os.environ] is [environ]. *)
Definition build_opencode_env (environ : dict) (base_env : option dict)
  (config_root config_dir : option string) (fs : FS F)
  : result dict * FS F * list fs_event :=
  let env :=
    match base_env with
    | None | Some [] => environ
    | Some (kv :: more) => kv :: more
    end in
  let env := flagged env in
  let '(r1, fs1, e1) :=
    match config_root with
    | Some root =>
        let '(r, fs', e) := make_dir root fs in
        match r with
        | Ok _ => (Ok (dict_set env "XDG_CONFIG_HOME" root), fs', e)
        | Raised => (Raised, fs', e)
        | OutOfFuel => (OutOfFuel, fs', e)
        end
    | None => (Ok env, fs, [])
    end in
  match r1 with
  | Ok env =>
      match config_dir with
      | Some dir =>
          let '(r, fs2, e2) := make_dir dir fs1 in
          match r with
          | Ok _ =>
              let config_file := joinpath F dir "opencode.json" in
              let '(r3, fs3, e3) :=
                match path_exists F config_file fs2 with
                | None => (Raised, fs2, [Tested config_file None])
                | Some false =>
                    let '(ok, fs') := write_text F config_file "{}" fs2 in
                    ((if ok then Ok tt else Raised), fs',
                     [Tested config_file (Some false);
                      Wrote config_file "{}" ok])
                | Some true =>
                    (Ok tt, fs2, [Tested config_file (Some true)])
                end in
              match r3 with
              | Ok _ =>
                  let env := dict_set env "OPENCODE_CONFIG_DIR" dir in
                  let env := dict_set env "OPENCODE_CONFIG" config_file in
                  let env := dict_set env "OPENCODE_CONFIG_CONTENT" "{}" in
                  (Ok env, fs3, e1 ++ e2 ++ e3)
              | Raised => (Raised, fs3, e1 ++ e2 ++ e3)
              | OutOfFuel => (OutOfFuel, fs3, e1 ++ e2 ++ e3)
              end
          | Raised => (Raised, fs2, e1 ++ e2)
          | OutOfFuel => (OutOfFuel, fs2, e1 ++ e2)
          end
      | None => (Ok env, fs1, e1)
      end
  | Raised => (Raised, fs1, e1)
  | OutOfFuel => (OutOfFuel, fs1, e1)
  end.

End BuildEnv.

(** The keys that [build_opencode_env] sets. *)
Definition flag_keys : list string :=
  ["OPENCODE_DISABLE_CLAUDE_CODE"; "OPENCODE_DISABLE_CLAUDE_CODE_SKILLS";
   "OPENCODE_DISABLE_CLAUDE_CODE_PROMPT"; "OPENCODE_DISABLE_DEFAULT_PLUGINS";
   "CI"].

Definition config_keys : list string :=
  ["OPENCODE_CONFIG_DIR"; "OPENCODE_CONFIG"; "OPENCODE_CONFIG_CONTENT"].

(** The writes of a file-system trace. *)
Definition writes (evs : list fs_event) : list fs_event :=
  filter (fun ev => match ev with Wrote _ _ _ => true | _ => false end) evs.

(** Files as (path, content) pairs, latest first; directories always
    there. *)
Definition plain_files : Files := {|
  FS := list (string * string);
  mkdir_parents := fun _ fs => (true, fs);
  path_exists := fun p fs =>
    Some (existsb (fun kv => String.eqb (fst kv) p) fs);
  write_text := fun p c fs => (true, (p, c) :: fs);
  joinpath := fun a b => (a ++ "/" ++ b)%string
|}.



(** * Properties *)

(** ** Priority order *)

Lemma insert_by_key_perm (x : node) (l : list node) :
  Permutation (x :: l) (insert_by_key x l).
Proof.
  induction l as [|y l IH]; simpl.
  - apply Permutation_refl.
  - destruct (sort_key x <=? sort_key y).
    + apply Permutation_refl.
    + eapply perm_trans; [apply perm_swap|].
      now apply perm_skip.
Qed.

Lemma sorted_items_perm (items : list node) :
  Permutation items (sorted_items items).
Proof.
  induction items as [|x items IH]; simpl.
  - constructor.
  - eapply perm_trans; [apply perm_skip, IH|].
    apply insert_by_key_perm.
Qed.

Lemma sorted_items_in (items : list node) (n : node) :
  In n (sorted_items items) <-> In n items.
Proof.
  split; apply Permutation_in;
    [apply Permutation_sym|]; apply sorted_items_perm.
Qed.

Lemma insert_by_key_sorted (x : node) (l : list node) :
  StronglySorted key_le l -> StronglySorted key_le (insert_by_key x l).
Proof.
  induction 1 as [|y l Hl IH Hy]; simpl.
  - repeat constructor.
  - destruct (sort_key x <=? sort_key y) eqn:Hxy.
    + apply Z.leb_le in Hxy.
      constructor; [now constructor|].
      constructor; [exact Hxy|].
      eapply Forall_impl; [|exact Hy].
      unfold key_le; intros; lia.
    + apply Z.leb_gt in Hxy.
      constructor; [exact IH|].
      eapply Permutation_Forall; [apply insert_by_key_perm|].
      constructor; [unfold key_le; lia | exact Hy].
Qed.

Lemma sorted_items_sorted (items : list node) :
  StronglySorted key_le (sorted_items items).
Proof.
  induction items; simpl; [constructor | now apply insert_by_key_sorted].
Qed.

Lemma strongly_sorted_split (l pre post : list node) (a : node) :
  StronglySorted key_le l -> l = pre ++ a :: post ->
  Forall (fun b => key_le b a) pre /\ Forall (fun b => key_le a b) post.
Proof.
  intros Hs; revert pre; induction Hs as [|y l Hl IH Hy]; intros pre Heq.
  - now destruct pre.
  - destruct pre as [|z pre]; simpl in Heq; injection Heq as -> ->.
    + split; [constructor | exact Hy].
    + destruct (IH pre eq_refl) as [Hpre Hpost].
      split; [|exact Hpost].
      constructor; [|exact Hpre].
      rewrite Forall_forall in Hy. apply Hy.
      apply in_or_app; right; now left.
Qed.

Lemma insert_by_key_filter_key (k : Z) (x : node) (l : list node) :
  filter (fun n => sort_key n =? k) (insert_by_key x l)
  = filter (fun n => sort_key n =? k) (x :: l).
Proof.
  induction l as [|y l IH]; [reflexivity|].
  simpl. destruct (sort_key x <=? sort_key y) eqn:Hxy; [reflexivity|].
  apply Z.leb_gt in Hxy. simpl. simpl in IH. rewrite IH.
  destruct (sort_key x =? k) eqn:Hx, (sort_key y =? k) eqn:Hy;
    try reflexivity.
  apply Z.eqb_eq in Hx, Hy. lia.
Qed.

Lemma sorted_items_filter_key (k : Z) (items : list node) :
  filter (fun n => sort_key n =? k) (sorted_items items)
  = filter (fun n => sort_key n =? k) items.
Proof.
  induction items as [|x items IH]; [reflexivity|].
  simpl sorted_items. rewrite insert_by_key_filter_key.
  simpl. now rewrite IH.
Qed.

(** C2 (as amended): the scan order [sorted_items items] is a rearrangement
    of the children in ascending order of the sort key, which is the
    priority, or 999 where the priority is missing; children with the same
    sort key (in particular a child without priority and a child of priority
    999) keep the order they have in the input.  A child without priority
    therefore comes after every child whose explicit priority is below 999
    and before every child whose explicit priority is above 999. *)
Theorem sorted_items_ascending_missing_as_999 (items : list node) :
  Permutation items (sorted_items items) /\
  StronglySorted (fun a b => sort_key a <= sort_key b) (sorted_items items) /\
  (forall k, filter (fun n => sort_key n =? k) (sorted_items items)
             = filter (fun n => sort_key n =? k) items) /\
  forall pre a post,
    sorted_items items = pre ++ a :: post ->
    priority a = None ->
    (forall b p, In b post -> priority b = Some p -> 999 <= p) /\
    (forall b p, In b pre -> priority b = Some p -> p <= 999).
Proof.
  split; [apply sorted_items_perm|].
  split; [apply sorted_items_sorted|].
  split; [intros k; apply sorted_items_filter_key|].
  intros pre a post Heq Ha.
  destruct (strongly_sorted_split _ pre post a (sorted_items_sorted items) Heq)
    as [Hpre Hpost].
  rewrite Forall_forall in Hpre, Hpost.
  split; intros b p Hb Hp.
  - specialize (Hpost b Hb). unfold key_le, sort_key in Hpost.
    now rewrite Ha, Hp in Hpost.
  - specialize (Hpre b Hb). unfold key_le, sort_key in Hpre.
    now rewrite Ha, Hp in Hpre.
Qed.

Lemma sorted_items_ascending_missing_as_999_witness :
  sorted_items [unranked_a; ranked_c; ranked_b]
  = [ranked_c] ++ unranked_a :: [ranked_b] /\
  (forall b p, In b [ranked_b] -> priority b = Some p -> 999 <= p) /\
  (forall b p, In b [ranked_c] -> priority b = Some p -> p <= 999).
Proof.
  split; [reflexivity|].
  exact (proj2 (proj2 (proj2 (sorted_items_ascending_missing_as_999
                                [unranked_a; ranked_c; ranked_b])))
               [ranked_c] unranked_a [ranked_b] eq_refl eq_refl).
Defined.

Lemma sorted_items_missing_before_1000 :
  sorted_items [ranked_b; unranked_a] = [unranked_a; ranked_b] /\
  priority unranked_a = None /\ priority ranked_b = Some 1000 /\
  select_first_open_leaf_task 1 [ranked_b; unranked_a] = Ok (Some "a").
Proof. repeat split. Qed.

(** ** Unfolding the walkers *)

Lemma find_leaf_S (limit : nat) (items : list node) :
  find_leaf (S limit) items = find_leaf_scan limit (sorted_items items).
Proof. reflexivity. Qed.

Lemma walk_S (E : Env) (limit : nat) (parent : string) :
  walk E (S limit) parent =
  bind E (load_children E parent)
       (fun items => walk_scan E limit (sorted_items items)).
Proof. reflexivity. Qed.

Lemma is_str_true (v : option string) (lit : string) :
  is_str v lit = true <-> v = Some lit.
Proof.
  destruct v as [s|]; simpl.
  - rewrite String.eqb_eq. split; congruence.
  - split; discriminate.
Qed.

Lemma truthy_true (v : option string) :
  truthy v = true <-> exists s, v = Some s /\ s <> "".
Proof.
  destruct v as [s|]; simpl.
  - rewrite negb_true_iff, String.eqb_neq.
    split; [intros H; now exists s | intros (s' & [= <-] & H); exact H].
  - split; [discriminate | intros (s & H & _); discriminate].
Qed.

(** ** Nodes of a forest *)

Lemma in_forest_nodes_top (tree : list node) (n : node) :
  In n tree -> In n (forest_nodes tree).
Proof.
  intros H. apply in_flat_map. exists n. split; [exact H|].
  destruct n; simpl; now left.
Qed.

Lemma in_forest_nodes_child (tree : list node) (p n : node) :
  In p tree -> In n (forest_nodes (children p)) -> In n (forest_nodes tree).
Proof.
  intros Hp Hn. apply in_flat_map. exists p. split; [exact Hp|].
  destruct p; simpl in *; now right.
Qed.

(** ** Soundness of the materialized-tree walker *)

Lemma find_leaf_selects_open_task (limit : nat) :
  forall (tree : list node) (r : string),
    find_leaf limit tree = Ok (Some r) ->
    exists n, In n (forest_nodes tree) /\ node_id n = Some r /\
              is_open_task n.
Proof.
  induction limit as [|limit IH]; intros tree r H; [discriminate|].
  rewrite find_leaf_S in H.
  assert (Hin : forall x, In x (sorted_items tree) -> In x tree)
    by (intros x; apply sorted_items_in).
  revert H Hin. generalize (sorted_items tree) as l.
  induction l as [|item rest IHl]; intros H Hin; [discriminate|].
  simpl in H.
  destruct (is_str (status item) "open") eqn:Hopen; simpl in H;
    [|apply IHl; [exact H | intros; apply Hin; now right]].
  destruct (is_str (issue_type item) "epic") eqn:Hepic.
  - destruct (children item) as [|c cs] eqn:Hch;
      [apply IHl; [exact H | intros; apply Hin; now right]|].
    destruct (find_leaf limit (c :: cs)) as [leaf| |] eqn:Hrec;
      try discriminate.
    destruct (truthy leaf);
      [|apply IHl; [exact H | intros; apply Hin; now right]].
    injection H as ->.
    destruct (IH _ _ Hrec) as (n & Hn & Hid & Htask).
    exists n. split; [|now split].
    apply in_forest_nodes_child with (p := item);
      [apply Hin; now left | now rewrite Hch].
  - destruct (is_str (issue_type item) "task") eqn:Htask;
      [|apply IHl; [exact H | intros; apply Hin; now right]].
    injection H as H. exists item.
    split; [apply in_forest_nodes_top, Hin; now left|].
    split; [exact H|].
    split; now apply is_str_true.
Qed.

(** ** Running in the monad *)

Section RunFacts.
Variable E : Env.

Lemma bind_inv {A B} (m : M E A) (k : A -> M E B) (w : W E)
      (r : result B) (w' : W E) (evs : list event) :
  bind E m k w = (r, w', evs) ->
  (exists a w1 e1 e2,
      m w = (Ok a, w1, e1) /\ k a w1 = (r, w', e2) /\ evs = e1 ++ e2) \/
  (m w = (Raised, w', evs) /\ r = Raised) \/
  (m w = (OutOfFuel, w', evs) /\ r = OutOfFuel).
Proof.
  unfold bind. destruct (m w) as [[ra w1] e1]. destruct ra as [a| |].
  - destruct (k a w1) as [[r2 w2] e2] eqn:Hk. intros [= <- <- <-].
    left. now exists a, w1, e1, e2.
  - intros [= <- <- <-]. right; left. now split.
  - intros [= <- <- <-]. right; right. now split.
Qed.

Lemma bind_ok_inv {A B} (m : M E A) (k : A -> M E B) (w : W E)
      (b : B) (w' : W E) (evs : list event) :
  bind E m k w = (Ok b, w', evs) ->
  exists a w1 e1 e2,
    m w = (Ok a, w1, e1) /\ k a w1 = (Ok b, w', e2) /\ evs = e1 ++ e2.
Proof.
  intros H. apply bind_inv in H.
  destruct H as [H | [[_ H] | [_ H]]]; [exact H | discriminate..].
Qed.

Lemma load_children_inv (parent : string) (w : W E) (r : result (list node))
      (w' : W E) (evs : list event) :
  load_children E parent w = (r, w', evs) ->
  exists out,
    command_runner E (ready_cmd parent) w = (out, w') /\
    evs = [Ran (ready_cmd parent) out] /\
    r = match out with
        | Some text =>
            match json_items E text with
            | Some items => Ok items
            | None => Raised
            end
        | None => Raised
        end.
Proof.
  unfold load_children, bind, run_command.
  destruct (command_runner E (ready_cmd parent) w) as [out w1].
  destruct out as [text|].
  - destruct (json_items E text) as [items|] eqn:Hjson; simpl;
      intros [= <- <- <-]; exists (Some text); now rewrite Hjson.
  - intros [= <- <- <-]. now exists None.
Qed.

(** The walker only asks the store for children. *)
Lemma walk_only_queries (limit : nat) :
  forall parent w r w' evs,
    walk E limit parent w = (r, w', evs) -> Forall is_ready_query evs.
Proof.
  induction limit as [|limit IH]; intros parent w r w' evs H.
  - injection H as <- <- <-. constructor.
  - rewrite walk_S in H. apply bind_inv in H.
    assert (Hload : forall r0 w0 e0,
               load_children E parent w = (r0, w0, e0) ->
               Forall is_ready_query e0).
    { intros r0 w0 e0 H0. apply load_children_inv in H0.
      destruct H0 as (out & _ & -> & _).
      constructor; [now exists parent, out | constructor]. }
    destruct H as [(items & w1 & e1 & e2 & Hl & Hk & ->) | [[Hl _] | [Hl _]]];
      [|now apply Hload in Hl..].
    apply Forall_app. split; [now apply Hload in Hl|].
    clear Hl Hload. revert r w' w1 e2 Hk.
    generalize (sorted_items items) as l.
    induction l as [|item rest IHl]; intros r w' w1 e2 Hk.
    + injection Hk as <- <- <-. constructor.
    + simpl in Hk.
      destruct (negb (is_str (status item) "open")); [now apply IHl in Hk|].
      destruct (node_id item) as [i|]; [|now apply IHl in Hk].
      destruct (String.eqb i ""); [now apply IHl in Hk|].
      destruct (is_str (issue_type item) "task").
      { injection Hk as <- <- <-. constructor. }
      destruct (is_str (issue_type item) "epic"); [|now apply IHl in Hk].
      apply bind_inv in Hk.
      destruct Hk as [(leaf & w2 & e3 & e4 & Hw & Hk & ->) | [[Hw _] | [Hw _]]];
        [|now apply IH in Hw..].
      apply Forall_app. split; [now apply IH in Hw|].
      destruct (truthy leaf); [|now apply IHl in Hk].
      injection Hk as <- <- <-. constructor.
Qed.

Lemma reported_app (e1 e2 : list event) :
  reported E (e1 ++ e2) = reported E e1 ++ reported E e2.
Proof. apply flat_map_app. Qed.

(** ** Soundness of the id-based walker *)

Lemma walk_selects_open_task (limit : nat) :
  forall parent w r w' evs,
    walk E limit parent w = (Ok (Some r), w', evs) ->
    exists n, In n (reported E evs) /\ node_id n = Some r /\ is_open_task n.
Proof.
  induction limit as [|limit IH]; intros parent w r w' evs H; [discriminate|].
  assert (Hscan : forall l w1 e2,
             walk_scan E limit l w1 = (Ok (Some r), w', e2) ->
             exists n, (In n l \/ In n (reported E e2)) /\
                       node_id n = Some r /\ is_open_task n).
  { induction l as [|item rest IHl]; intros w1 e2 Hk; [discriminate|].
    simpl in Hk.
    assert (Hskip : forall w0,
               walk_scan E limit rest w0 = (Ok (Some r), w', e2) ->
               exists n, (In n (item :: rest) \/ In n (reported E e2)) /\
                         node_id n = Some r /\ is_open_task n).
    { intros w0 H0. destruct (IHl _ _ H0) as (n & [Hn | Hn] & Hrest);
        exists n; (split; [|exact Hrest]); [left; now right | now right]. }
    destruct (is_str (status item) "open") eqn:Hopen; simpl in Hk;
      [|now apply Hskip in Hk].
    destruct (node_id item) as [i|] eqn:Hid; [|now apply Hskip in Hk].
    destruct (String.eqb i ""); [now apply Hskip in Hk|].
    destruct (is_str (issue_type item) "task") eqn:Htask.
    { injection Hk as -> <- <-. exists item.
      split; [left; now left|].
      split; [exact Hid|]. split; now apply is_str_true. }
    destruct (is_str (issue_type item) "epic"); [|now apply Hskip in Hk].
    apply bind_ok_inv in Hk.
    destruct Hk as (leaf & w2 & e3 & e4 & Hw & Hk & ->).
    rewrite reported_app.
    destruct (truthy leaf) eqn:Hleaf.
    - injection Hk as -> <- <-.
      apply IH in Hw. destruct Hw as (n & Hn & Hrest).
      exists n. split; [|exact Hrest].
      right. apply in_or_app. now left.
    - destruct (IHl _ _ Hk) as (n & [Hn | Hn] & Hrest);
        exists n; (split; [|exact Hrest]);
        [left; now right | right; apply in_or_app; now right]. }
  rewrite walk_S in H. apply bind_ok_inv in H.
  destruct H as (items & w1 & e1 & e2 & Hl & Hk & ->).
  apply load_children_inv in Hl. destruct Hl as (out & _ & -> & Hr).
  destruct out as [text|]; [|discriminate].
  destruct (json_items E text) as [items'|] eqn:Hjson; [|discriminate].
  injection Hr as ->.
  destruct (Hscan _ _ _ Hk) as (n & Hn & Hrest).
  exists n. split; [|exact Hrest].
  rewrite reported_app. apply in_or_app.
  destruct Hn as [Hn | Hn]; [left | now right].
  apply (proj1 (sorted_items_in _ _)) in Hn.
  cbn. rewrite Hjson, app_nil_r. exact Hn.
Qed.

End RunFacts.

(** ** Unique ids *)

Lemma NoDup_app_disjoint {A} (l1 l2 : list A) (a : A) :
  NoDup (l1 ++ l2) -> In a l1 -> In a l2 -> False.
Proof.
  induction l1 as [|x l1 IH]; simpl; intros Hnd H1 H2; [exact H1|].
  inversion Hnd as [|? ? Hx Hnd']; subst.
  destruct H1 as [-> | H1]; [|now apply IH].
  apply Hx, in_or_app. now right.
Qed.

Lemma NoDup_flat_map_same {A B} (g : A -> list B) (l : list A) (a b : A) (x : B) :
  NoDup (flat_map g l) -> In a l -> In b l -> In x (g a) -> In x (g b) ->
  a = b.
Proof.
  induction l as [|c l IH]; simpl; intros Hnd Ha Hb Hxa Hxb; [contradiction|].
  destruct Ha as [-> | Ha], Hb as [-> | Hb].
  - reflexivity.
  - exfalso. apply (NoDup_app_disjoint _ _ x Hnd Hxa).
    apply in_flat_map. now exists b.
  - exfalso. apply (NoDup_app_disjoint _ _ x Hnd Hxb).
    apply in_flat_map. now exists a.
  - apply IH; auto. now apply NoDup_app_remove_l in Hnd.
Qed.

Lemma unique_id_same_node (tree : list node) (a b : node) (i : string) :
  NoDup (present_ids tree) ->
  In a (forest_nodes tree) -> In b (forest_nodes tree) ->
  node_id a = Some i -> node_id b = Some i -> a = b.
Proof.
  intros Hnd Ha Hb Hia Hib.
  apply (NoDup_flat_map_same _ _ a b i Hnd Ha Hb).
  - rewrite Hia. now left.
  - rewrite Hib. now left.
Qed.

(** C1: an id returned by either walker is the id of a node that is open
    and of type task: a node of the tree for [select_first_open_leaf_task],
    an item the store reported during the walk for
    [select_first_open_leaf_task_id].  Where ids are unique (the tree has no
    two nodes with one id; the store describes an id in one way), no node
    carrying the returned id is an epic or is not open. *)
Theorem selected_id_is_open_task :
  (forall limit tree r,
      select_first_open_leaf_task limit tree = Ok (Some r) ->
      (exists n, In n (forest_nodes tree) /\ node_id n = Some r /\
                 is_open_task n) /\
      (NoDup (present_ids tree) ->
       forall m, In m (forest_nodes tree) -> node_id m = Some r ->
                 status m = Some "open" /\ issue_type m = Some "task" /\
                 issue_type m <> Some "epic")) /\
  (forall E limit root w r w' evs,
      select_first_open_leaf_task_id E limit root w = (Ok (Some r), w', evs) ->
      (exists n, In n (reported E evs) /\ node_id n = Some r /\
                 is_open_task n) /\
      (consistent (reported E evs) ->
       forall m, In m (reported E evs) -> node_id m = Some r ->
                 status m = Some "open" /\ issue_type m = Some "task" /\
                 issue_type m <> Some "epic")).
Proof.
  split.
  - intros limit tree r H.
    destruct (find_leaf_selects_open_task limit tree r H)
      as (n & Hn & Hid & Hopen & Htask).
    split; [now exists n|].
    intros Hnd m Hm Hmid.
    rewrite (unique_id_same_node tree m n r Hnd Hm Hn Hmid Hid).
    repeat split; [exact Hopen | exact Htask | rewrite Htask; discriminate].
  - intros E limit root w r w' evs H.
    destruct (walk_selects_open_task E limit root w r w' evs H)
      as (n & Hn & Hid & Hopen & Htask).
    split; [now exists n|].
    intros Hc m Hm Hmid.
    destruct (Hc m n Hm Hn) as [Hs Ht]; [congruence|].
    rewrite Hs, Ht.
    repeat split; [exact Hopen | exact Htask | rewrite Htask; discriminate].
Qed.

Lemma selected_id_is_open_task_witness :
  (exists n, In n (forest_nodes sample_tree) /\ node_id n = Some "t3" /\
             is_open_task n) /\
  (exists n, In n (reported Demo.env
                     [Ran (ready_cmd "root") (Some "open")]) /\
             node_id n = Some "t1" /\ is_open_task n).
Proof.
  split.
  - exact (proj1 (proj1 selected_id_is_open_task 3%nat sample_tree "t3"
                    eq_refl)).
  - exact (proj1 (proj2 selected_id_is_open_task Demo.env 3%nat "root"
                    (Demo.start true true) "t1" (Demo.start true true)
                    [Ran (ready_cmd "root") (Some "open")] eq_refl)).
Defined.

(** ** The scan stops at a task without id *)

Lemma find_leaf_scan_passes (limit : nat) (pre rest : list node) :
  Forall (yields_nothing limit) pre ->
  find_leaf_scan limit (pre ++ rest) = find_leaf_scan limit rest.
Proof.
  induction 1 as [|p pre Hp Hpre IH]; [reflexivity|].
  simpl. destruct Hp as [Hclosed | [[Hepic Hsub] | [Hepic Htask]]].
  - now rewrite Hclosed.
  - destruct (is_str (status p) "open"); simpl; [|exact IH].
    rewrite Hepic. destruct Hsub as [-> | (leaf & Hleaf & Hfalsy)];
      [exact IH|].
    destruct (children p); [exact IH|].
    now rewrite Hleaf, Hfalsy.
  - destruct (is_str (status p) "open"); simpl; [|exact IH].
    now rewrite Hepic, Htask.
Qed.

(** C9: when the scan of [find_leaf] over the sorted children reaches an
    open task whose id is missing or empty, [find_leaf] returns that id,
    which is falsy ([None] when the id is missing), whatever comes after it
    in the scan order: the open siblings ranked behind it are not looked
    at. *)
Theorem find_leaf_stops_at_task_without_id
        (limit : nat) (items pre post : list node) (n : node) :
  sorted_items items = pre ++ n :: post ->
  Forall (yields_nothing limit) pre ->
  is_str (status n) "open" = true ->
  is_str (issue_type n) "task" = true ->
  truthy (node_id n) = false ->
  select_first_open_leaf_task (S limit) items = Ok (node_id n) /\
  (node_id n = None \/ node_id n = Some "") /\
  (node_id n = None ->
   select_first_open_leaf_task (S limit) items = Ok None).
Proof.
  intros Hsort Hpre Hopen Htask Hid.
  assert (Hres : select_first_open_leaf_task (S limit) items = Ok (node_id n)).
  { unfold select_first_open_leaf_task.
    rewrite find_leaf_S, Hsort, find_leaf_scan_passes by exact Hpre.
    simpl. rewrite Hopen. simpl.
    apply is_str_true in Htask. rewrite Htask. reflexivity. }
  split; [exact Hres|]. split.
  - destruct (node_id n) as [s|]; [right | now left].
    simpl in Hid. apply negb_false_iff, String.eqb_eq in Hid. now subst.
  - intros Hnone. now rewrite Hres, Hnone.
Qed.

Lemma find_leaf_stops_at_task_without_id_witness :
  select_first_open_leaf_task 1 idless_first = Ok None /\
  In (mkNode (Some "b") (Some "open") (Some "task") (Some 2) [])
     idless_first.
Proof.
  split; [|now left].
  refine (proj1 (find_leaf_stops_at_task_without_id 0 idless_first []
            [mkNode (Some "b") (Some "open") (Some "task") (Some 2) []]
            (mkNode None (Some "open") (Some "task") (Some 1) [])
            eq_refl (Forall_nil _) eq_refl eq_refl eq_refl)).
Defined.

(** ** Depth bounds the nesting of calls *)

Lemma node_depth_children (n : node) :
  node_depth n = S (forest_depth (children n)).
Proof. destruct n; reflexivity. Qed.

Lemma node_depth_le_forest (tree : list node) (n : node) :
  In n tree -> (node_depth n <= forest_depth tree)%nat.
Proof.
  induction tree as [|c tree IH]; simpl; intros H; [contradiction|].
  destruct H as [-> | H]; [|apply IH in H]; lia.
Qed.

Lemma find_leaf_returns (limit : nat) :
  forall tree, (forest_depth tree < limit)%nat ->
               exists r, find_leaf limit tree = Ok r.
Proof.
  induction limit as [|limit IH]; intros tree Hd; [lia|].
  rewrite find_leaf_S.
  assert (Hin : forall x, In x (sorted_items tree) ->
                          (node_depth x <= limit)%nat).
  { intros x Hx. apply (proj1 (sorted_items_in _ _)) in Hx.
    apply node_depth_le_forest in Hx. lia. }
  revert Hin. generalize (sorted_items tree) as l.
  induction l as [|item rest IHl]; intros Hin; [now exists None|].
  assert (Hrest : exists r, find_leaf_scan limit rest = Ok r)
    by (apply IHl; intros; apply Hin; now right).
  simpl. destruct (negb (is_str (status item) "open")); [exact Hrest|].
  destruct (is_str (issue_type item) "epic").
  - destruct (children item) as [|c cs] eqn:Hch; [exact Hrest|].
    destruct (IH (c :: cs)) as [leaf ->].
    + specialize (Hin item (or_introl eq_refl)).
      rewrite node_depth_children, Hch in Hin. lia.
    + destruct (truthy leaf); [now exists leaf | exact Hrest].
  - destruct (is_str (issue_type item) "task");
      [now exists (node_id item) | exact Hrest].
Qed.

(** ** A store that presents a tree *)

Lemma shown_as_sort_key (item n : node) :
  shown_as item n -> sort_key item = sort_key n.
Proof. intros (_ & _ & _ & Hp). unfold sort_key. now rewrite Hp. Qed.

Lemma insert_by_key_shown (x y : node) (l1 l2 : list node) :
  shown_as x y -> Forall2 shown_as l1 l2 ->
  Forall2 shown_as (insert_by_key x l1) (insert_by_key y l2).
Proof.
  intros Hxy. induction 1 as [|a b l1 l2 Hab Hl IH]; simpl.
  - constructor; [exact Hxy | constructor].
  - rewrite (shown_as_sort_key _ _ Hxy), (shown_as_sort_key _ _ Hab).
    destruct (sort_key y <=? sort_key b).
    + constructor; [exact Hxy|]. now constructor.
    + now constructor.
Qed.

Lemma sorted_items_shown (l1 l2 : list node) :
  Forall2 shown_as l1 l2 ->
  Forall2 shown_as (sorted_items l1) (sorted_items l2).
Proof.
  induction 1; simpl; [constructor | now apply insert_by_key_shown].
Qed.

Lemma ids_usable_children (tree : list node) (n : node) :
  In n tree -> ids_usable tree -> ids_usable (children n).
Proof.
  intros Hn Hu m Hm. apply Hu. now apply in_forest_nodes_child with (p := n).
Qed.

(** On a store that presents [tree], with a limit above the number of
    levels of the tree, the id-based walker returns, leaves the store as it
    was, and agrees with the tree walker where the ids are usable. *)
Lemma walk_on_presented_tree (E : Env) (w : W E) (limit : nat) :
  forall parent tree,
    presents E w parent tree ->
    (forest_depth tree < limit)%nat ->
    exists r evs,
      walk E limit parent w = (Ok r, w, evs) /\
      (ids_usable tree -> find_leaf limit tree = Ok r).
Proof.
  induction limit as [|limit IH]; intros parent tree Hp Hd; [lia|].
  destruct Hp as [parent out items level Hcmd Hjson Hshown Hsub].
  assert (Hload : load_children E parent w =
                  (Ok items, w, [Ran (ready_cmd parent) (Some out)])).
  { unfold load_children, bind, run_command. rewrite Hcmd, Hjson.
    reflexivity. }
  assert (Hscan : forall l1 l2,
             Forall2 shown_as l1 l2 ->
             (forall n, In n l2 -> In n level) ->
             exists r evs,
               walk_scan E limit l1 w = (Ok r, w, evs) /\
               (ids_usable level -> find_leaf_scan limit l2 = Ok r)).
  { induction 1 as [|item n l1 l2 Hin_shown Hl IHl]; intros Hin.
    { exists None, []. now split. }
    destruct IHl as (r0 & e0 & Hw0 & Ht0);
      [intros; apply Hin; now right|].
    assert (Hn : In n level) by (apply Hin; now left).
    destruct Hin_shown as (Hid & Hst & Hty & _).
    simpl. rewrite Hst, Hid, Hty.
    destruct (is_str (status n) "open") eqn:Hopen; simpl;
      [|now exists r0, e0].
    assert (Huse : ids_usable level ->
                   is_str (issue_type n) "epic" = true \/
                   is_str (issue_type n) "task" = true ->
                   truthy (node_id n) = true).
    { intros Hu. apply Hu; [now apply in_forest_nodes_top | exact Hopen]. }
    destruct (is_str (issue_type n) "epic") eqn:Hepic.
    - (* an open epic *)
      assert (Htask : is_str (issue_type n) "task" = false).
      { apply is_str_true in Hepic. now rewrite Hepic. }
      rewrite Htask.
      destruct (node_id n) as [i|] eqn:Hi.
      2:{ exists r0, e0. split; [exact Hw0|]. intros Hu.
          specialize (Huse Hu (or_introl eq_refl)). discriminate. }
      destruct (String.eqb i "") eqn:Hempty.
      { exists r0, e0. split; [exact Hw0|]. intros Hu.
        specialize (Huse Hu (or_introl eq_refl)). simpl in Huse.
        now rewrite Hempty in Huse. }
      apply String.eqb_neq in Hempty.
      rewrite Forall_forall in Hsub.
      specialize (Hsub n Hn Hopen Hepic i Hi Hempty).
      destruct (IH i (children n) Hsub) as (leaf & e1 & Hw1 & Ht1).
      { apply node_depth_le_forest in Hn.
        rewrite node_depth_children in Hn. lia. }
      unfold bind. rewrite Hw1.
      destruct (truthy leaf) eqn:Hleaf.
      + exists leaf, (e1 ++ []). split; [reflexivity|]. intros Hu.
        specialize (Ht1 (ids_usable_children level n Hn Hu)).
        destruct (children n) as [|c cs].
        * destruct limit; [discriminate|]. injection Ht1 as <-. discriminate.
        * now rewrite Ht1, Hleaf.
      + rewrite Hw0. exists r0, (e1 ++ e0). split; [reflexivity|]. intros Hu.
        specialize (Ht1 (ids_usable_children level n Hn Hu)).
        destruct (children n) as [|c cs]; [now apply Ht0|].
        rewrite Ht1, Hleaf. now apply Ht0.
    - destruct (is_str (issue_type n) "task") eqn:Htask.
      + (* an open task *)
        destruct (node_id n) as [i|] eqn:Hi.
        2:{ exists r0, e0. split; [exact Hw0|]. intros Hu.
            specialize (Huse Hu (or_intror eq_refl)). discriminate. }
        destruct (String.eqb i "") eqn:Hempty.
        { exists r0, e0. split; [exact Hw0|]. intros Hu.
          specialize (Huse Hu (or_intror eq_refl)). simpl in Huse.
          now rewrite Hempty in Huse. }
        exists (Some i), []. now split.
      + destruct (node_id n) as [i|]; [|now exists r0, e0].
        destruct (String.eqb i ""); now exists r0, e0. }
  destruct (Hscan (sorted_items items) (sorted_items level))
    as (r & evs & Hw & Ht).
  { now apply sorted_items_shown. }
  { intros n. apply sorted_items_in. }
  exists r, ([Ran (ready_cmd parent) (Some out)] ++ evs).
  split; [|now rewrite find_leaf_S].
  rewrite walk_S. unfold bind. now rewrite Hload, Hw.
Qed.

(** ** Two stores, checked *)

Lemma shown_as_refl (n : node) : shown_as n n.
Proof. now repeat split. Qed.

Lemma Forall2_shown_as_refl (l : list node) : Forall2 shown_as l l.
Proof. induction l; constructor; [apply shown_as_refl | assumption]. Qed.

Lemma tree_store_presents_sample :
  presents (tree_store "root" sample_tree) tt "root" sample_tree.
Proof.
  apply presents_level with (out := "root") (items := sample_tree);
    [reflexivity | reflexivity | apply Forall2_shown_as_refl |].
  repeat constructor; try discriminate.
  intros _ _ i [= <-] _.
  eapply presents_level with (out := "e1");
    [reflexivity | reflexivity | apply Forall2_shown_as_refl |].
  repeat constructor; discriminate.
Qed.

Lemma tree_store_presents_idless :
  presents (tree_store "root" idless_first) tt "root" idless_first.
Proof.
  apply presents_level with (out := "root") (items := idless_first);
    [reflexivity | reflexivity | apply Forall2_shown_as_refl |].
  repeat constructor; discriminate.
Qed.

Lemma sample_tree_ids_usable : ids_usable sample_tree.
Proof.
  intros n Hn _ _. simpl in Hn.
  repeat (destruct Hn as [<- | Hn]; [reflexivity|]). contradiction.
Qed.

(** ** The recursion limit *)

Lemma find_leaf_more_limit (limit : nat) :
  forall limit' tree r,
    (limit <= limit')%nat ->
    find_leaf limit tree = Ok r -> find_leaf limit' tree = Ok r.
Proof.
  induction limit as [|limit IH]; intros limit' tree r Hle H; [discriminate|].
  destruct limit' as [|limit']; [lia|].
  rewrite find_leaf_S in *.
  revert H. generalize (sorted_items tree) as l.
  induction l as [|item rest IHl]; intros H; [exact H|].
  simpl in *.
  destruct (negb (is_str (status item) "open")); [now apply IHl|].
  destruct (is_str (issue_type item) "epic").
  - destruct (children item) as [|c cs]; [now apply IHl|].
    destruct (find_leaf limit (c :: cs)) as [leaf| |] eqn:Hrec;
      try discriminate.
    rewrite (IH limit' (c :: cs) leaf); [|lia|exact Hrec].
    destruct (truthy leaf); [exact H | now apply IHl].
  - destruct (is_str (issue_type item) "task"); [exact H | now apply IHl].
Qed.

Lemma find_leaf_same_within_limit (limit1 limit2 : nat) (tree : list node) :
  (forest_depth tree < limit1)%nat -> (forest_depth tree < limit2)%nat ->
  find_leaf limit1 tree = find_leaf limit2 tree.
Proof.
  intros H1 H2.
  destruct (find_leaf_returns (S (forest_depth tree)) tree) as [r Hr]; [lia|].
  rewrite (find_leaf_more_limit _ limit1 tree r H1 Hr).
  now rewrite (find_leaf_more_limit _ limit2 tree r H2 Hr).
Qed.

(** The tree walker returns or raises. *)
Lemma find_leaf_halts (limit : nat) :
  forall tree, (exists r, find_leaf limit tree = Ok r) \/
               find_leaf limit tree = Raised.
Proof.
  induction limit as [|limit IH]; intros tree; [now right|].
  rewrite find_leaf_S. generalize (sorted_items tree) as l.
  induction l as [|item rest IHl]; [left; now exists None|].
  simpl.
  destruct (negb (is_str (status item) "open")); [exact IHl|].
  destruct (is_str (issue_type item) "epic").
  - destruct (children item) as [|c cs]; [exact IHl|].
    destruct (IH (c :: cs)) as [[leaf ->] | ->]; [|now right].
    destruct (truthy leaf); [left; now exists leaf | exact IHl].
  - destruct (is_str (issue_type item) "task");
      [left; now exists (node_id item) | exact IHl].
Qed.

(** The id-based walker returns or raises, whatever the store answers. *)
Lemma walk_halts (E : Env) (limit : nat) :
  forall parent w,
    (exists r, fst (fst (walk E limit parent w)) = Ok r) \/
    fst (fst (walk E limit parent w)) = Raised.
Proof.
  induction limit as [|limit IH]; intros parent w; [now right|].
  rewrite walk_S. unfold bind.
  destruct (load_children E parent w) as [[r0 w0] e0] eqn:Hl.
  apply load_children_inv in Hl. destruct Hl as (out & _ & _ & ->).
  assert (Hscan : forall l w1,
             (exists r, fst (fst (walk_scan E limit l w1)) = Ok r) \/
             fst (fst (walk_scan E limit l w1)) = Raised).
  { induction l as [|item rest IHl]; intros w1; [left; now exists None|].
    simpl.
    destruct (negb (is_str (status item) "open")); [apply IHl|].
    destruct (node_id item) as [i|]; [|apply IHl].
    destruct (String.eqb i ""); [apply IHl|].
    destruct (is_str (issue_type item) "task"); [left; now exists (Some i)|].
    destruct (is_str (issue_type item) "epic"); [|apply IHl].
    unfold bind. specialize (IH i w1).
    destruct (walk E limit i w1) as [[r2 w2] e2]. simpl in IH.
    destruct r2 as [leaf| |].
    - destruct (truthy leaf); [left; now exists leaf|].
      specialize (IHl w2).
      destruct (walk_scan E limit rest w2) as [[r3 w3] e3]. exact IHl.
    - now right.
    - destruct IH as [[r H] | H]; discriminate. }
  destruct out as [text|]; [|right; reflexivity].
  destruct (json_items E text) as [items|]; [|right; reflexivity].
  specialize (Hscan (sorted_items items) w0).
  destruct (walk_scan E limit (sorted_items items) w0) as [[r3 w3] e3].
  exact Hscan.
Qed.

(** A chain of [limit] epics is one level too deep for the tree walker. *)
Lemma find_leaf_epic_chain (limit : nat) :
  find_leaf limit (epic_chain limit) = Raised /\
  find_leaf (S limit) (epic_chain limit) = Ok (Some "t").
Proof.
  induction limit as [|limit [IH1 IH2]]; [split; reflexivity|].
  split.
  - rewrite find_leaf_S. simpl epic_chain. cbn [sorted_items insert_by_key].
    cbn -[find_leaf epic_chain].
    destruct (epic_chain limit) as [|c cs] eqn:Hc;
      [destruct limit; discriminate|].
    now rewrite IH1.
  - rewrite find_leaf_S. simpl epic_chain. cbn [sorted_items insert_by_key].
    cbn -[find_leaf epic_chain].
    destruct (epic_chain limit) as [|c cs] eqn:Hc;
      [destruct limit; discriminate|].
    now rewrite IH2.
Qed.

(** ** The cyclic store *)

(** On the cyclic store every level of the id-based walker asks once and
    goes one level down: it raises after [limit] queries. *)
Lemma walk_cyclic_raises (limit : nat) (w : W cyclic_store) :
  walk cyclic_store limit "root" w
  = (Raised, w, repeat (Ran (ready_cmd "root") (Some "")) limit).
Proof.
  revert w. induction limit as [|limit IH]; intros w; [reflexivity|].
  rewrite walk_S. unfold bind at 1.
  change (load_children cyclic_store "root" w)
    with (Ok [mkNode (Some "root") (Some "open") (Some "epic") None []], w,
          [Ran (ready_cmd "root") (Some "")]).
  cbn [sorted_items insert_by_key walk_scan]. cbn -[walk repeat].
  unfold bind. rewrite IH. reflexivity.
Qed.

(** C7 (as amended): leaf selection always halts, and it returns within the
    recursion limit: the tree walker returns on every tree that has fewer
    levels than the number of nested calls the limit allows, however wide;
    the id-based walker returns, under the same condition, on every store
    that presents a tree, and leaves the store as it was; and whatever the
    tree or the store, each walker either returns or raises. *)
Theorem leaf_selection_returns_within_limit :
  (forall limit tree,
      (forest_depth tree < limit)%nat ->
      exists r, select_first_open_leaf_task limit tree = Ok r) /\
  (forall E w limit root tree,
      presents E w root tree ->
      (forest_depth tree < limit)%nat ->
      exists r evs,
        select_first_open_leaf_task_id E limit root w = (Ok r, w, evs)) /\
  (forall limit tree,
      (exists r, select_first_open_leaf_task limit tree = Ok r) \/
      select_first_open_leaf_task limit tree = Raised) /\
  (forall E limit root w,
      (exists r,
          fst (fst (select_first_open_leaf_task_id E limit root w)) = Ok r) \/
      fst (fst (select_first_open_leaf_task_id E limit root w)) = Raised).
Proof.
  split; [|split; [|split]].
  - intros limit tree Hd. now apply find_leaf_returns.
  - intros E w limit root tree Hp Hd.
    destruct (walk_on_presented_tree E w limit root tree Hp Hd)
      as (r & evs & H & _).
    now exists r, evs.
  - intros limit tree. apply find_leaf_halts.
  - intros E limit root w. apply walk_halts.
Qed.

Lemma leaf_selection_returns_within_limit_witness :
  (exists r, select_first_open_leaf_task 3 sample_tree = Ok r) /\
  (exists r evs,
      select_first_open_leaf_task_id (tree_store "root" sample_tree) 3
        "root" tt = (Ok r, tt, evs)).
Proof.
  split.
  - apply (proj1 leaf_selection_returns_within_limit 3%nat sample_tree).
    simpl. lia.
  - apply (proj1 (proj2 leaf_selection_returns_within_limit)
             (tree_store "root" sample_tree) tt 3%nat "root" sample_tree
             tree_store_presents_sample).
    simpl. lia.
Defined.

(** Whatever the limit, a finite tree is too deep for the tree walker, which
    raises where one more level would have returned the task; and on the
    cyclic store the id-based walker raises after as many queries as the
    limit allows nested calls. *)
Lemma leaf_selection_raises_beyond_limit :
  (forall limit,
      select_first_open_leaf_task limit (epic_chain limit) = Raised /\
      select_first_open_leaf_task (S limit) (epic_chain limit)
      = Ok (Some "t")) /\
  (forall limit w,
      select_first_open_leaf_task_id cyclic_store limit "root" w
      = (Raised, w, repeat (Ran (ready_cmd "root") (Some "")) limit)).
Proof.
  split.
  - intros limit. apply find_leaf_epic_chain.
  - intros limit w. apply walk_cyclic_raises.
Qed.

(** C8 (as amended): on a tree whose open epics and open tasks all have a
    non-empty id and which has fewer levels than the recursion limit allows
    each walker nested calls, the tree walker and the id-based walker run on
    a store that presents the tree return the same result. *)
Theorem walkers_agree_on_usable_ids
        (E : Env) (w : W E) (limit_tree limit_id : nat) (root : string)
        (tree : list node) :
  presents E w root tree ->
  ids_usable tree ->
  (forest_depth tree < limit_tree)%nat ->
  (forest_depth tree < limit_id)%nat ->
  exists r evs,
    select_first_open_leaf_task limit_tree tree = Ok r /\
    select_first_open_leaf_task_id E limit_id root w = (Ok r, w, evs).
Proof.
  intros Hp Hu Ht Hi.
  destruct (walk_on_presented_tree E w limit_id root tree Hp Hi)
    as (r & evs & Hw & Hf).
  exists r, evs. split; [|exact Hw].
  unfold select_first_open_leaf_task.
  rewrite (find_leaf_same_within_limit limit_tree limit_id tree Ht Hi).
  now apply Hf.
Qed.

Lemma walkers_agree_on_usable_ids_witness :
  exists r evs,
    select_first_open_leaf_task 4 sample_tree = Ok r /\
    select_first_open_leaf_task_id (tree_store "root" sample_tree) 3
      "root" tt = (Ok r, tt, evs).
Proof.
  apply (walkers_agree_on_usable_ids (tree_store "root" sample_tree) tt
           4%nat 3%nat "root" sample_tree tree_store_presents_sample
           sample_tree_ids_usable); simpl; lia.
Defined.

(** A store presents [idless_first]; the tree walker stops at the task
    without id, the id-based walker skips it and returns ["b"]. *)
Lemma walkers_differ_on_task_without_id :
  presents (tree_store "root" idless_first) tt "root" idless_first /\
  select_first_open_leaf_task 2 idless_first = Ok None /\
  fst (fst (select_first_open_leaf_task_id
              (tree_store "root" idless_first) 2 "root" tt))
  = Ok (Some "b").
Proof.
  split; [exact tree_store_presents_idless|]. split; reflexivity.
Qed.

(** ** The run loop *)

Section LoopFacts.
Variable E : Env.
Variable run_once_runner : string -> string -> bool -> M E string.
Variables repo_root root_id : string.
Variable dry_run : bool.

Lemma count_completed_app (its1 its2 : list iteration) :
  count_completed (its1 ++ its2) = count_completed its1 + count_completed its2.
Proof.
  induction its1 as [|[[o| |] evs] its1 IH]; simpl; rewrite ?IH; lia.
Qed.

(** The counter only grows by outcomes equal to ["completed"], never passes
    the cap once below it, and the executor is only called below the cap. *)
Lemma run_loop_from_counts (N : Z) (fuel : nat) :
  forall completed w c w' its,
    run_loop_from E fuel run_once_runner repo_root (Some N) root_id dry_run
                  completed w = (Ok c, w', its) ->
    c = completed + count_completed its /\
    c <= Z.max completed N /\
    forall pre it post,
      its = pre ++ it :: post -> completed + count_completed pre < N.
Proof.
  induction fuel as [|fuel IH]; intros completed w c w' its H;
    [discriminate|].
  simpl in H. destruct (N <=? completed) eqn:Hcap.
  { injection H as <- <- <-. simpl. repeat split; try lia.
    intros [|? ?] ? ? ?; discriminate. }
  apply Z.leb_gt in Hcap.
  destruct (run_once_runner repo_root root_id dry_run w) as [[r w1] evs].
  destruct r as [outcome| |]; try discriminate.
  assert (Hfirst : forall (tail : list iteration) pre it post,
             (Ok outcome, evs) :: tail = pre ++ it :: post ->
             (forall pre' , tail = pre' ++ it :: post ->
                            completed + count_completed ((Ok outcome, evs) :: pre') < N) ->
             completed + count_completed pre < N).
  { intros tail [|p pre] it post Heq Htail; simpl in *; [lia|].
    injection Heq as <- ->. now apply Htail. }
  destruct (String.eqb outcome "no_tasks") eqn:Hnone.
  { injection H as <- <- <-. simpl.
    apply String.eqb_eq in Hnone. subst outcome. simpl.
    repeat split; try lia.
    intros pre it post Heq. apply (Hfirst _ _ _ _ Heq).
    intros [|? ?] ?; discriminate. }
  remember (String.eqb outcome "completed") as done eqn:Hdone.
  destruct (String.eqb outcome "dry_run") eqn:Hdry.
  { injection H as <- <- <-. simpl. rewrite <- Hdone.
    destruct done; repeat split; try lia;
      intros pre it post Heq; apply (Hfirst _ _ _ _ Heq);
      intros [|? ?] ?; discriminate. }
  destruct (run_loop_from E fuel run_once_runner repo_root (Some N) root_id
              dry_run (if done then completed + 1 else completed) w1)
    as [[r2 w2] its'] eqn:Hrec.
  injection H as -> <- <-.
  destruct (IH _ _ _ _ _ Hrec) as (Hc & Hle & Hcalls).
  simpl. rewrite <- Hdone.
  destruct done; (split; [lia | split; [lia|]]);
    intros pre it post Heq; apply (Hfirst _ _ _ _ Heq);
    intros pre' Heq'; specialize (Hcalls _ _ _ Heq'); simpl;
    rewrite <- Hdone; lia.
Qed.

End LoopFacts.

(** C5 (as amended): with [max_tasks = N] the count that [run_loop] returns
    is the number of executor calls that ended in ["completed"], it never
    exceeds [max 0 N], and every call of the executor is made while fewer
    than [N] earlier calls have ended in ["completed"]. *)
Theorem run_loop_count_within_cap
        (E : Env) (run_once_runner : string -> string -> bool -> M E string)
        (fuel : nat) (repo_root : string) (N : Z) (root_id : string)
        (dry_run : bool) (w : W E) (c : Z) (w' : W E)
        (its : list iteration) :
  run_loop E fuel run_once_runner repo_root (Some N) root_id dry_run w
  = (Ok c, w', its) ->
  c = count_completed its /\
  c <= Z.max 0 N /\
  forall pre it post, its = pre ++ it :: post -> count_completed pre < N.
Proof.
  intros H. apply run_loop_from_counts in H.
  destruct H as (Hc & Hle & Hcalls). repeat split; [lia | lia |].
  intros pre it post Heq. specialize (Hcalls _ _ _ Heq). lia.
Qed.

Lemma run_loop_count_within_cap_witness :
  2 = count_completed [(Ok "completed", []); (Ok "completed", [])] /\
  2 <= Z.max 0 2 /\
  forall pre it post,
    [(Ok "completed", []); (Ok "completed", [])] = pre ++ it :: post ->
    count_completed pre < 2.
Proof.
  exact (run_loop_count_within_cap Demo.env Demo.always_completed 5 "repo" 2
           "root" false (Demo.start true true) 2 (Demo.start true true)
           [(Ok "completed", []); (Ok "completed", [])] eq_refl).
Defined.

(** With [max_tasks = -1] the loop returns 0, which exceeds the cap. *)
Lemma run_loop_count_exceeds_negative_cap :
  exists c w' its,
    run_loop Demo.env 1 Demo.always_completed "repo" (Some (-1)) "root" false
             (Demo.start true true) = (Ok c, w', its) /\
    -1 < c.
Proof.
  exists 0, (Demo.start true true), []. split; [reflexivity | lia].
Qed.

(** C10: with [max_tasks = N] and [N <= 0], [run_loop] returns 0 at its
    first test of the cap: whatever the executor is, it is not called, the
    collaborators are left as they were and no event occurs. *)
Theorem run_loop_nonpositive_cap_returns_zero
        (E : Env) (run_once_runner : string -> string -> bool -> M E string)
        (fuel : nat) (repo_root : string) (N : Z) (root_id : string)
        (dry_run : bool) (w : W E) :
  N <= 0 ->
  run_loop E (S fuel) run_once_runner repo_root (Some N) root_id dry_run w
  = (Ok 0, w, []).
Proof.
  intros HN. unfold run_loop. simpl.
  apply Z.leb_le in HN. now rewrite HN.
Qed.

Lemma run_loop_nonpositive_cap_returns_zero_witness :
  run_loop Demo.env 1 (run_once Demo.env 3) "repo" (Some (-3)) "root" false
           (Demo.start true true)
  = (Ok 0, Demo.start true true, []).
Proof.
  apply (run_loop_nonpositive_cap_returns_zero Demo.env (run_once Demo.env 3)
           0 "repo" (-3) "root" false (Demo.start true true)).
  lia.
Defined.

(** ** Stepping through [run_once] *)

(** Case analysis on the innermost scrutinee of the run in [H]. *)
Ltac step_in H :=
  match type of H with
  | context [match ?x with _ => _ end] =>
      lazymatch x with
      | context [match _ with _ => _ end] => fail
      | _ => destruct x eqn:?; cbv beta iota in H
      end
  end.

(** Split a finished run [H : (r0, w0, e0) = (r, w', evs)]. *)
Ltac finish_in H :=
  let Hr := fresh "Hres" in
  let Hw := fresh "Hworld" in
  let He := fresh "Hevs" in
  pose proof (f_equal (fun x => fst (fst x)) H) as Hr;
  pose proof (f_equal (fun x => snd (fst x)) H) as Hw;
  pose proof (f_equal (fun x => snd x) H) as He;
  cbv beta in Hr, Hw, He; cbn [fst snd] in Hr, Hw, He;
  cbn [app] in He; clear H.

Ltac run_once_paths H :=
  unfold run_once, select_first_open_leaf_task_id, bind, run_command,
    run_call, run_agent, log_completion, first_record, print, ret, raise in H;
  repeat step_in H; finish_in H.

Section ExecutorFacts.
Variable E : Env.



End ExecutorFacts.

(** ** Traces are played *)

Section Plays.
Variable E : Env.

















End Plays.




(** ** The two blocked paths of [run_once] *)

Section BlockedFacts.
Variable E : Env.

Lemma ready_query_cases (ev : event) (l : list event) :
  Forall is_ready_query l -> In ev l ->
  exists parent out, ev = Ran (ready_cmd parent) out.
Proof.
  intros Hl Hin. rewrite Forall_forall in Hl. exact (Hl ev Hin).
Qed.

Lemma logged_app (e1 e2 : list event) :
  logged (e1 ++ e2) = logged e1 ++ logged e2.
Proof. apply flat_map_app. Qed.

Lemma logged_ready_queries (l : list event) :
  Forall is_ready_query l -> logged l = [].
Proof.
  induction 1 as [|ev l (p & out & ->) Hl IH]; [reflexivity | exact IH].
Qed.

Section Head.
Variable head : W E -> string.
Hypothesis Hkept : head_kept E head.

Lemma ready_kept parent w out w' :
  command_runner E (ready_cmd parent) w = (out, w') -> head w' = head w.
Proof.
  intros H. rewrite <- (ready_keeps_head E head Hkept parent w).
  now rewrite H.
Qed.

Lemma show_kept leaf w out w' :
  command_runner E (show_cmd leaf) w = (out, w') -> head w' = head w.
Proof.
  intros H. rewrite <- (show_keeps_head E head Hkept leaf w). now rewrite H.
Qed.

Lemma status_kept w out w' :
  command_runner E git_status_cmd w = (out, w') -> head w' = head w.
Proof.
  intros H. rewrite <- (status_keeps_head E head Hkept w). now rewrite H.
Qed.

Lemma rev_parse_kept w out w' :
  command_runner E rev_parse_cmd w = (out, w') -> head w' = head w.
Proof.
  intros H. rewrite <- (rev_parse_keeps_head E head Hkept w). now rewrite H.
Qed.

Lemma update_kept leaf st w ok w' :
  call_runner E (update_cmd leaf st) w = (ok, w') -> head w' = head w.
Proof.
  intros H. rewrite <- (update_keeps_head E head Hkept leaf st w).
  now rewrite H.
Qed.

Lemma add_kept w ok w' :
  call_runner E git_add_cmd w = (ok, w') -> head w' = head w.
Proof.
  intros H. rewrite <- (add_keeps_head E head Hkept w). now rewrite H.
Qed.

Lemma agent_kept cmd w ok w' :
  opencode_runner E cmd w = (ok, w') -> head w' = head w.
Proof.
  intros H. rewrite <- (agent_keeps_head E head Hkept cmd w). now rewrite H.
Qed.

Lemma walk_keeps_head (limit : nat) :
  forall parent w r w' evs,
    walk E limit parent w = (r, w', evs) -> head w' = head w.
Proof.
  induction limit as [|limit IH]; intros parent w r w' evs H.
  - now injection H as <- <- <-.
  - rewrite walk_S in H. apply bind_inv in H.
    assert (Hload : forall r0 w0 e0,
               load_children E parent w = (r0, w0, e0) -> head w0 = head w).
    { intros r0 w0 e0 H0. apply load_children_inv in H0.
      destruct H0 as (out & Hcmd & _). now apply ready_kept in Hcmd. }
    destruct H as [(items & w1 & e1 & e2 & Hl & Hk & ->) | [[Hl _] | [Hl _]]];
      [|now apply Hload in Hl..].
    apply Hload in Hl. rewrite <- Hl. clear Hl Hload.
    revert r w' w1 e2 Hk. generalize (sorted_items items) as l.
    induction l as [|item rest IHl]; intros r w' w1 e2 Hk.
    + now injection Hk as <- <- <-.
    + simpl in Hk.
      destruct (negb (is_str (status item) "open")); [now apply IHl in Hk|].
      destruct (node_id item) as [i|]; [|now apply IHl in Hk].
      destruct (String.eqb i ""); [now apply IHl in Hk|].
      destruct (is_str (issue_type item) "task").
      { now injection Hk as <- <- <-. }
      destruct (is_str (issue_type item) "epic"); [|now apply IHl in Hk].
      apply bind_inv in Hk.
      destruct Hk as [(leaf & w2 & e3 & e4 & Hw & Hk & ->) | [[Hw _] | [Hw _]]];
        [|now apply IH in Hw..].
      apply IH in Hw. rewrite <- Hw.
      destruct (truthy leaf); [|now apply IHl in Hk].
      now injection Hk as <- <- <-.
Qed.

End Head.

End BlockedFacts.

(** An event of the trace [l ++ tail], where [l] holds the walker's
    queries ([Hq]): case analysis on which event it is. *)
Ltac walker_event H Hq :=
  let Heq := fresh "Heq" in
  destruct (ready_query_cases _ _ Hq H) as (? & ? & Heq);
  unfold ready_cmd, git_status_cmd in Heq; discriminate Heq.

Ltac which_event H Hq :=
  first
    [ apply in_app_or in H; destruct H as [H | H];
      [exfalso; walker_event H Hq | cbn [In] in H]
    | exfalso; walker_event H Hq ];
  unfold show_cmd, git_status_cmd, rev_parse_cmd, update_cmd, close_cmd,
    commit_cmd, git_add_cmd, sync_cmd in H;
  repeat (destruct H as [H | H]; [try discriminate H|]);
  try contradiction H.

(** All the steps of a path that leave the head revision alone. *)
Ltac heads Hkept :=
  repeat match goal with
         | H : walk _ _ _ _ = (_, _, _) |- _ =>
             apply (walk_keeps_head _ _ Hkept) in H
         | H : command_runner _ _ _ = (_, _) |- _ =>
             first [ apply (show_kept _ _ Hkept) in H
                   | apply (status_kept _ _ Hkept) in H
                   | apply (rev_parse_kept _ _ Hkept) in H ]
         | H : opencode_runner _ _ _ = (_, _) |- _ =>
             apply (agent_kept _ _ Hkept) in H
         | H : call_runner _ _ _ = (_, _) |- _ =>
             first [ apply (update_kept _ _ Hkept) in H
                   | apply (add_kept _ _ Hkept) in H ]
         end.

(** Replay a stretch of a path from the steps in the context. *)
Ltac replay :=
  repeat first
    [ apply plays_nil | apply plays_printed | apply plays_logged
    | eapply plays_ran; [eassumption|]
    | eapply plays_called; [eassumption|]
    | eapply plays_dispatched; [eassumption|] ].

(** ** The contracts on [Demo] *)

Lemma demo_reports_head : reports_head Demo.env Demo.head_rev.
Proof. intros w out w' H. now injection H as <- <-. Qed.

Lemma demo_head_kept : head_kept Demo.env Demo.head_rev.
Proof. split; reflexivity. Qed.

Lemma demo_store_contract : store_contract Demo.env demo_status_of.
Proof. intros w leaf st w' H. now injection H as <-. Qed.

Lemma committing_agent_reports_head :
  reports_head committing_agent Demo.head_rev.
Proof. intros w out w' H. now injection H as <- <-. Qed.

(** ** Neighbours in a trace *)




(** C3 (as amended): a run of the executor in which the agent ran and
    [git status --porcelain] printed nothing but blanks returns
    ["blocked"].  It is the run on the selected task [leaf]; after the
    steps up to [git status] it asks for the head revision, writes one entry
    to the audit log, with status ["blocked"], for [leaf] and with the
    stripped answer as commit, and then runs [bd update leaf --status
    blocked], which returns: in a store that keeps its contract [leaf] is
    then ["blocked"].  The run issues no [git commit].  The recorded commit
    is the head revision at the time it is asked for; it is the head
    revision from before the run, and the head has not moved at the end,
    when the agent and the commands of the run leave the head alone. *)
Theorem no_change_run_is_blocked
        (E : Env) (limit : nat) (repo_root root_id : string) (dry_run : bool)
        (w : W E) (r : string) (w' : W E) (evs : list event) :
  run_once E limit repo_root root_id dry_run w = (Ok r, w', evs) ->
  (exists cmd, In (Dispatched cmd true) evs) ->
  (exists out, In (Ran git_status_cmd (Some out)) evs /\ strip E out = "") ->
  r = "blocked" /\
  exists leaf sel w0 before w1 head_out w2 entry,
    select_first_open_leaf_task_id E limit root_id w
    = (Ok (Some leaf), w0, sel) /\
    evs = sel ++ before ++ [Ran rev_parse_cmd (Some head_out); Logged entry;
                            Called (update_cmd leaf "blocked") true] /\
    plays E w0 before w1 /\
    command_runner E rev_parse_cmd w1 = (Some head_out, w2) /\
    call_runner E (update_cmd leaf "blocked") w2 = (true, w') /\
    logged evs = [entry] /\
    log_status entry = "blocked" /\
    issue_id entry = leaf /\
    commit_sha entry = strip E head_out /\
    (forall cmd ok, In (Called cmd ok) evs -> is_commit cmd = false) /\
    (forall status_of,
        store_contract E status_of -> status_of w' leaf = Some "blocked") /\
    (forall head,
        reports_head E head ->
        commit_sha entry = head w1 /\
        (head_kept E head -> commit_sha entry = head w /\ head w' = head w)).
Proof.
  intros H (cmd & Hagent) (out & Hstatus & Hblank).
  run_once_paths H; try discriminate Hres.
  all: match goal with
       | Hwalk : walk _ _ _ _ = _ |- _ =>
           pose proof (walk_only_queries _ _ _ _ _ _ _ Hwalk) as Hq
       end.
  all: subst evs.
  all: try (which_event Hagent Hq; fail).
  all: which_event Hstatus Hq.
  all: injection Hstatus as Hout; subst out.
  all: try (match goal with
            | Hb : (strip _ _ =? "")%string = false |- _ =>
                apply String.eqb_neq in Hb; contradiction
            end).
  split; [now injection Hres|].
  subst w'.
  match goal with
  | Hwalk : walk _ _ _ _ = (Ok (Some ?leaf), ?w0, ?sel),
    Hrev : command_runner _ rev_parse_cmd ?w1 = (Some ?h, ?w2)
    |- context [?l ++ [?e1; ?e2; ?e3; ?e4; ?e5; ?e6; ?e7;
                       Ran rev_parse_cmd (Some ?h); Logged ?e;
                       Called (update_cmd ?leaf "blocked") true]] =>
      exists leaf, sel, w0, [e1; e2; e3; e4; e5; e6; e7], w1, h, w2, e
  end.
  split; [assumption|]. split; [reflexivity|].
  split; [replay|]. split; [assumption|]. split; [assumption|].
  split; [rewrite logged_app, (logged_ready_queries _ Hq); reflexivity|].
  split; [reflexivity|]. split; [reflexivity|]. split; [reflexivity|].
  split.
  { intros c ok Hc. which_event Hc Hq; injection Hc as <- <-; reflexivity. }
  split.
  { intros status_of Hstore.
    match goal with
    | Hupd : call_runner _ (update_cmd _ "blocked") _ = _ |- _ =>
        exact (Hstore _ _ _ _ Hupd)
    end. }
  intros head Hreports. cbn [commit_sha].
  match goal with
  | Hrev : command_runner _ rev_parse_cmd _ = _ |- _ =>
      pose proof (Hreports _ _ _ Hrev) as Hsha
  end.
  split; [exact Hsha|].
  intros Hkept. heads Hkept. split; congruence.
Qed.

(** The agent of [committing_agent] commits what it did: [git status] then
    prints nothing, the run returns ["blocked"] without a [git commit] of
    its own, and the one entry it logs carries the revision that the agent
    created, not the head revision from before the run. *)
Lemma no_change_run_logs_commit_of_agent :
  let start := Demo.start false true in
  let run := run_once committing_agent 3 "repo" "root" false start in
  fst (fst run) = Ok "blocked" /\
  (exists cmd, In (Dispatched cmd true) (snd run)) /\
  In (Ran git_status_cmd (Some "")) (snd run) /\
  (forall cmd ok, In (Called cmd ok) (snd run) -> is_commit cmd = false) /\
  reports_head committing_agent Demo.head_rev /\
  Demo.head_rev start = "c0" /\
  (exists entry,
      logged (snd run) = [entry] /\ log_status entry = "blocked" /\
      commit_sha entry = "c0+1").
Proof.
  intros start run.
  split; [reflexivity|].
  split; [eexists; vm_compute; do 4 right; left; reflexivity|].
  split; [vm_compute; do 7 right; left; reflexivity|].
  split.
  { intros cmd ok Hc. vm_compute in Hc.
    repeat (destruct Hc as [Hc | Hc];
            [try discriminate Hc; injection Hc as <- <-; reflexivity|]).
    contradiction. }
  split; [exact committing_agent_reports_head|].
  split; [reflexivity|].
  eexists. split; [vm_compute; reflexivity|]. split; reflexivity.
Qed.

Lemma no_change_run_is_blocked_witness :
  let start := Demo.start false true in
  let run := run_once Demo.env 3 "repo" "root" false start in
  fst (fst run) = Ok "blocked" /\
  demo_status_of (snd (fst run)) "t1" = Some "blocked" /\
  exists entry,
    logged (snd run) = [entry] /\
    log_status entry = "blocked" /\
    issue_id entry = "t1" /\
    commit_sha entry = Demo.head_rev start /\
    Demo.head_rev (snd (fst run)) = Demo.head_rev start.
Proof.
  intros start run. split; [reflexivity|].
  destruct (no_change_run_is_blocked Demo.env 3 "repo" "root" false
              start "blocked" (snd (fst run)) (snd run) eq_refl)
    as (_ & leaf & sel & w0 & before & w1 & head_out & w2 & entry & Hsel &
        _ & _ & _ & _ & Hlog & Hst & Hid & _ & _ & Hstore & Hhead).
  - eexists. vm_compute. do 4 right. left. reflexivity.
  - exists "". split; [|reflexivity]. vm_compute. do 7 right. left.
    reflexivity.
  - assert (Hleaf : leaf = "t1") by (vm_compute in Hsel; congruence).
    rewrite Hleaf in Hid, Hstore.
    split; [exact (Hstore demo_status_of demo_store_contract)|].
    exists entry. split; [exact Hlog|]. split; [exact Hst|].
    split; [exact Hid|].
    exact (proj2 (Hhead Demo.head_rev demo_reports_head) demo_head_kept).
Defined.



(** ** More on the two walkers *)

Lemma find_leaf_scan_all_closed (limit : nat) (l : list node) :
  (forall n, In n l -> is_str (status n) "open" = false) ->
  find_leaf_scan limit l = Ok None.
Proof.
  intros H. rewrite <- (app_nil_r l).
  rewrite find_leaf_scan_passes; [reflexivity|].
  apply Forall_forall. intros n Hn. left. now apply H.
Qed.

Lemma walk_scan_passes (E : Env) (limit : nat) (pre rest : list node) :
  Forall (fun n => passed_without_query n = true) pre ->
  walk_scan E limit (pre ++ rest) = walk_scan E limit rest.
Proof.
  induction 1 as [|n pre Hn Hpre IH]; [reflexivity|].
  simpl. unfold passed_without_query in Hn.
  destruct (is_str (status n) "open"); simpl in *; [|exact IH].
  destruct (node_id n) as [i|]; simpl in *; [|exact IH].
  destruct (String.eqb i ""); simpl in *; [exact IH|].
  destruct (is_str (issue_type n) "task"); simpl in *; [discriminate|].
  destruct (is_str (issue_type n) "epic"); simpl in *; [discriminate|].
  exact IH.
Qed.

Lemma walk_after_answer (E : Env) (limit : nat) (parent : string) (w w1 : W E)
      (out : string) (items : list node) :
  command_runner E (ready_cmd parent) w = (Some out, w1) ->
  json_items E out = Some items ->
  walk E (S limit) parent w =
  let '(r, w2, e2) := walk_scan E limit (sorted_items items) w1 in
  (r, w2, Ran (ready_cmd parent) (Some out) :: e2).
Proof.
  intros Hcmd Hjson. rewrite walk_S.
  unfold bind at 1, load_children, bind, run_command.
  rewrite Hcmd, Hjson. cbn [ret].
  destruct (walk_scan E limit (sorted_items items) w1) as [[r w2] e2].
  reflexivity.
Qed.

(** X1: where no child reported for the root is open, both walkers select
    nothing, whatever lies below those children: the tree walker without
    looking into them, the id-based walker after its one query. *)
Theorem nothing_open_at_top_selects_nothing :
  (forall limit tree,
      (forall n, In n tree -> is_str (status n) "open" = false) ->
      select_first_open_leaf_task (S limit) tree = Ok None) /\
  (forall E limit root w out w1 items,
      command_runner E (ready_cmd root) w = (Some out, w1) ->
      json_items E out = Some items ->
      (forall n, In n items -> is_str (status n) "open" = false) ->
      select_first_open_leaf_task_id E (S limit) root w
      = (Ok None, w1, [Ran (ready_cmd root) (Some out)])).
Proof.
  split.
  - intros limit tree H. unfold select_first_open_leaf_task.
    rewrite find_leaf_S. apply find_leaf_scan_all_closed.
    intros n Hn. apply H. now apply sorted_items_in.
  - intros E limit root w out w1 items Hcmd Hjson H.
    unfold select_first_open_leaf_task_id.
    rewrite (walk_after_answer E limit root w w1 out items Hcmd Hjson).
    rewrite <- (app_nil_r (sorted_items items)), walk_scan_passes;
      [reflexivity|].
    apply Forall_forall. intros n Hn. unfold passed_without_query.
    rewrite H; [reflexivity | now apply sorted_items_in].
Qed.

Lemma nothing_open_at_top_selects_nothing_witness :
  select_first_open_leaf_task 1 closed_parent = Ok None /\
  select_first_open_leaf_task_id (tree_store "root" closed_parent) 1 "root" tt
  = (Ok None, tt, [Ran (ready_cmd "root") (Some "root")]).
Proof.
  split.
  - apply (proj1 nothing_open_at_top_selects_nothing 0%nat closed_parent).
    intros n [<- | []]. reflexivity.
  - apply (proj2 nothing_open_at_top_selects_nothing
             (tree_store "root" closed_parent) 0%nat "root" tt "root" tt
             closed_parent eq_refl eq_refl).
    intros n [<- | []]. reflexivity.
Defined.

(** X2: the id-based walker passes over every item that is not open, has
    no usable id or is neither task nor epic, without a query for it, and
    returns the first open task with a usable id that it reaches. *)
Theorem walk_returns_first_usable_task
        (E : Env) (limit : nat) (root : string) (w w1 : W E) (out : string)
        (items pre post : list node) (n : node) (i : string) :
  command_runner E (ready_cmd root) w = (Some out, w1) ->
  json_items E out = Some items ->
  sorted_items items = pre ++ n :: post ->
  Forall (fun p => passed_without_query p = true) pre ->
  is_str (status n) "open" = true ->
  is_str (issue_type n) "task" = true ->
  node_id n = Some i -> i <> "" ->
  select_first_open_leaf_task_id E (S limit) root w
  = (Ok (Some i), w1, [Ran (ready_cmd root) (Some out)]).
Proof.
  intros Hcmd Hjson Hsort Hpre Hopen Htask Hid Hi.
  unfold select_first_open_leaf_task_id.
  rewrite (walk_after_answer E limit root w w1 out items Hcmd Hjson).
  rewrite Hsort, walk_scan_passes by exact Hpre.
  simpl. rewrite Hopen, Hid, Htask. simpl.
  apply String.eqb_neq in Hi. now rewrite Hi.
Qed.

Lemma walk_returns_first_usable_task_witness :
  select_first_open_leaf_task_id (tree_store "root" mixed_answer) 1 "root" tt
  = (Ok (Some "c"), tt, [Ran (ready_cmd "root") (Some "root")]) /\
  select_first_open_leaf_task 1 mixed_answer = Ok None.
Proof.
  split; [|reflexivity].
  apply (walk_returns_first_usable_task (tree_store "root" mixed_answer)
           0 "root" tt tt "root" mixed_answer
           [mkNode (Some "a") (Some "closed") (Some "task") (Some 1) [];
            mkNode None (Some "open") (Some "task") (Some 2) []]
           [] (mkNode (Some "c") (Some "open") (Some "task") (Some 7) [])
           "c" eq_refl eq_refl eq_refl).
  - repeat constructor.
  - reflexivity.
  - reflexivity.
  - reflexivity.
  - discriminate.
Defined.

(** ** More on the scan order *)

Lemma insert_by_key_below (x : node) (l : list node) :
  Forall (key_le x) l -> insert_by_key x l = x :: l.
Proof.
  intros H. destruct l as [|y l]; [reflexivity|].
  inversion H as [|? ? Hxy _]; subst. simpl.
  unfold key_le in Hxy. apply Z.leb_le in Hxy. now rewrite Hxy.
Qed.

(** X3: the scan order is that of a stable sort: children with the same
    sort key (the same priority, or a missing priority and priority 999)
    keep the order of the backlog, and a backlog already in ascending order
    is scanned as it stands. *)
Theorem sorted_items_is_stable (items : list node) :
  (forall k, filter (fun n => sort_key n =? k) (sorted_items items)
             = filter (fun n => sort_key n =? k) items) /\
  (StronglySorted (fun a b => sort_key a <= sort_key b) items ->
   sorted_items items = items).
Proof.
  split.
  - intros k. induction items as [|x items IH]; [reflexivity|].
    simpl sorted_items. rewrite insert_by_key_filter_key.
    simpl. now rewrite IH.
  - induction 1 as [|x items Hs IH Hx]; [reflexivity|].
    simpl. rewrite IH. now apply insert_by_key_below.
Qed.

Lemma sorted_items_is_stable_witness :
  filter (fun n => sort_key n =? 999)
         (sorted_items [ranked_b; unranked_a;
                        mkNode (Some "d") None None (Some 999) []; ranked_c])
  = [unranked_a; mkNode (Some "d") None None (Some 999) []] /\
  sorted_items [ranked_c; unranked_a; ranked_b]
  = [ranked_c; unranked_a; ranked_b].
Proof.
  split.
  - exact (proj1 (sorted_items_is_stable
                    [ranked_b; unranked_a;
                     mkNode (Some "d") None None (Some 999) []; ranked_c])
                 999).
  - apply (proj2 (sorted_items_is_stable [ranked_c; unranked_a; ranked_b])).
    repeat constructor; unfold sort_key; simpl; lia.
Defined.

Lemma insert_by_key_comm (x y : node) (l : list node) :
  sort_key x <> sort_key y ->
  insert_by_key x (insert_by_key y l) = insert_by_key y (insert_by_key x l).
Proof.
  intros Hxy. induction l as [|z l IH]; simpl.
  - destruct (sort_key x <=? sort_key y) eqn:H1,
             (sort_key y <=? sort_key x) eqn:H2; try reflexivity;
      rewrite ?Z.leb_le, ?Z.leb_gt in *; lia.
  - destruct (sort_key y <=? sort_key z) eqn:Hyz,
             (sort_key x <=? sort_key z) eqn:Hxz; simpl;
      rewrite ?Hyz, ?Hxz;
      destruct (sort_key x <=? sort_key y) eqn:H1,
               (sort_key y <=? sort_key x) eqn:H2;
      try reflexivity; try (now rewrite IH);
      rewrite ?Z.leb_le, ?Z.leb_gt in *; lia.
Qed.

Lemma sorted_items_permutation (l l' : list node) :
  Permutation l l' -> NoDup (map sort_key l) ->
  sorted_items l = sorted_items l'.
Proof.
  induction 1 as [|x l l' Hp IH|x y l|l l' l'' Hp1 IH1 Hp2 IH2]; intros Hnd.
  - reflexivity.
  - simpl. rewrite IH; [reflexivity|]. now inversion Hnd.
  - simpl. apply insert_by_key_comm.
    inversion Hnd as [|? ? Hx _]; subst. intros Heq. apply Hx.
    rewrite Heq. now left.
  - rewrite IH1 by exact Hnd. apply IH2.
    eapply Permutation_NoDup; [|exact Hnd]. now apply Permutation_map.
Qed.

(** X4: where the children given to the tree walker have pairwise distinct
    sort keys, its result does not depend on the order in which they are
    given. *)
Theorem find_leaf_ignores_input_order
        (limit : nat) (tree tree' : list node) :
  Permutation tree tree' ->
  NoDup (map sort_key tree) ->
  select_first_open_leaf_task limit tree
  = select_first_open_leaf_task limit tree'.
Proof.
  intros Hp Hnd. unfold select_first_open_leaf_task.
  destruct limit as [|limit]; [reflexivity|].
  rewrite !find_leaf_S. now rewrite (sorted_items_permutation tree tree').
Qed.

Lemma find_leaf_ignores_input_order_witness :
  select_first_open_leaf_task 1 [unranked_a; ranked_b; ranked_c]
  = select_first_open_leaf_task 1 [ranked_c; unranked_a; ranked_b].
Proof.
  apply (find_leaf_ignores_input_order 1
           [unranked_a; ranked_b; ranked_c] [ranked_c; unranked_a; ranked_b]).
  - apply Permutation_sym, (Permutation_cons_app [unranked_a; ranked_b] []).
    apply Permutation_refl.
  - repeat constructor; simpl; intuition discriminate.
Defined.

(** X5: the tree walker is depth first and first match wins: past the
    children that give nothing, an open task yields its id, and an open epic
    whose subtree gives a non-empty id yields that id; the children ranked
    behind are not looked at. *)
Theorem find_leaf_first_match_wins
        (limit : nat) (items pre post : list node) (n : node) :
  sorted_items items = pre ++ n :: post ->
  Forall (yields_nothing limit) pre ->
  is_str (status n) "open" = true ->
  (is_str (issue_type n) "task" = true ->
   select_first_open_leaf_task (S limit) items = Ok (node_id n)) /\
  (forall leaf,
      is_str (issue_type n) "epic" = true ->
      find_leaf limit (children n) = Ok leaf ->
      truthy leaf = true ->
      select_first_open_leaf_task (S limit) items = Ok leaf).
Proof.
  intros Hsort Hpre Hopen. unfold select_first_open_leaf_task.
  rewrite find_leaf_S, Hsort, find_leaf_scan_passes by exact Hpre.
  simpl. rewrite Hopen. simpl. split.
  - intros Htask. apply is_str_true in Htask. now rewrite Htask.
  - intros leaf Hepic Hrec Hleaf. rewrite Hepic.
    destruct (children n) as [|c cs].
    + destruct limit; [discriminate|]. injection Hrec as <-. discriminate.
    + now rewrite Hrec, Hleaf.
Qed.

Lemma find_leaf_first_match_wins_witness :
  select_first_open_leaf_task 2 sample_tree = Ok (Some "t3").
Proof.
  refine (proj2 (find_leaf_first_match_wins 1 sample_tree []
                   [mkNode (Some "t4") (Some "open") (Some "task") (Some 3) []]
                   (mkNode (Some "e1") (Some "open") (Some "epic") (Some 2)
                      [mkNode (Some "t2") (Some "closed") (Some "task")
                              (Some 1) [];
                       mkNode (Some "t3") (Some "open") (Some "task")
                              (Some 5) []])
                   eq_refl (Forall_nil _) eq_refl)
                (Some "t3") eq_refl eq_refl eq_refl).
Defined.

(** ** More on the executor *)

(** X6: an executor run that returns, returns one of the four outcomes. *)
Theorem run_once_outcomes
        (E : Env) (limit : nat) (repo_root root_id : string) (dry_run : bool)
        (w : W E) (r : string) (w' : W E) (evs : list event) :
  run_once E limit repo_root root_id dry_run w = (Ok r, w', evs) ->
  r = "no_tasks" \/ r = "dry_run" \/ r = "blocked" \/ r = "completed".
Proof.
  intros H. run_once_paths H; try discriminate Hres.
  all: injection Hres as <-; auto.
Qed.

Lemma run_once_outcomes_witness :
  "completed" = "no_tasks" \/ "completed" = "dry_run" \/
  "completed" = "blocked" \/ "completed" = "completed".
Proof.
  exact (run_once_outcomes Demo.env 3 "repo" "root" false
           (Demo.start true true) "completed"
           (snd (fst (run_once Demo.env 3 "repo" "root" false
                        (Demo.start true true))))
           (snd (run_once Demo.env 3 "repo" "root" false
                   (Demo.start true true)))
           eq_refl).
Defined.

(** X7: an executor run that ends in ["no_tasks"] has only asked the store
    for children: no command was called, no agent dispatched, nothing
    logged or printed; and where the store reports no child under the root,
    the run ends in ["no_tasks"] after that one query, dry run or not. *)
Theorem run_once_no_tasks_only_queries :
  (forall E limit repo_root root_id dry_run w w' evs,
      run_once E limit repo_root root_id dry_run w = (Ok "no_tasks", w', evs) ->
      Forall is_ready_query evs /\ logged evs = []) /\
  (forall E limit repo_root root_id dry_run w out w1,
      command_runner E (ready_cmd root_id) w = (Some out, w1) ->
      json_items E out = Some [] ->
      run_once E (S limit) repo_root root_id dry_run w
      = (Ok "no_tasks", w1, [Ran (ready_cmd root_id) (Some out)])).
Proof.
  split.
  - intros E limit repo_root root_id dry_run w w' evs H.
    assert (Hq : Forall is_ready_query evs).
    { run_once_paths H; try discriminate Hres.
      all: match goal with
           | Hwalk : walk _ _ _ _ = _ |- _ =>
               apply walk_only_queries in Hwalk
           end.
      all: subst evs; rewrite ?app_nil_r; assumption. }
    split; [exact Hq | now apply logged_ready_queries].
  - intros E limit repo_root root_id dry_run w out w1 Hcmd Hjson.
    unfold run_once, select_first_open_leaf_task_id. unfold bind at 1.
    now rewrite (walk_after_answer E limit root_id w w1 out [] Hcmd Hjson).
Qed.

Lemma run_once_no_tasks_only_queries_witness :
  run_once Demo.env 1 "repo" "root" false
           (Demo.set_status "closed" (Demo.start true true))
  = (Ok "no_tasks", Demo.set_status "closed" (Demo.start true true),
     [Ran (ready_cmd "root") (Some "")]) /\
  logged [Ran (ready_cmd "root") (Some "")] = [].
Proof.
  split.
  - exact (proj2 run_once_no_tasks_only_queries Demo.env 0%nat "repo" "root"
             false (Demo.set_status "closed" (Demo.start true true)) ""
             (Demo.set_status "closed" (Demo.start true true))
             eq_refl eq_refl).
  - exact (proj2 (proj1 run_once_no_tasks_only_queries Demo.env 1%nat "repo"
                    "root" false
                    (Demo.set_status "closed" (Demo.start true true))
                    (Demo.set_status "closed" (Demo.start true true))
                    [Ran (ready_cmd "root") (Some "")] eq_refl)).
Defined.

(** X8: an executor run that ends in ["completed"] has written one entry
    to the audit log, with status ["completed"], and has ended with these
    steps: a [git commit] that succeeded, the [git rev-parse HEAD] whose
    stripped output is the commit of the entry, the entry, [bd close] of the
    task of the entry, a [bd show] of it that reported status ["closed"],
    and [bd sync]. *)
Theorem run_once_completed_path
        (E : Env) (limit : nat) (repo_root root_id : string) (dry_run : bool)
        (w : W E) (w' : W E) (evs : list event) :
  run_once E limit repo_root root_id dry_run w = (Ok "completed", w', evs) ->
  exists entry message head_out shown rec recs before,
    logged evs = [entry] /\
    log_status entry = "completed" /\
    commit_sha entry = strip E head_out /\
    evs = before ++ [Called (commit_cmd message) true;
                     Ran rev_parse_cmd (Some head_out);
                     Logged entry;
                     Called (close_cmd (issue_id entry)) true;
                     Ran (show_cmd (issue_id entry)) (Some shown);
                     Called sync_cmd true] /\
    json_records E shown = Some (rec :: recs) /\
    rec_status rec = Some "closed".
Proof.
  intros H. run_once_paths H; try discriminate Hres.
  all: match goal with
       | Hwalk : walk _ _ _ _ = _ |- _ =>
           pose proof (walk_only_queries _ _ _ _ _ _ _ Hwalk) as Hq
       end.
  all: subst evs.
  all: match goal with
       | Hb : negb (is_str (rec_status ?rec) "closed") = false,
         Hj : json_records _ ?shown = Some (?rec :: ?recs)
         |- context [?l ++ [?e1; ?e2; ?e3; ?e4; ?e5; ?e6; ?e7;
                            Called (commit_cmd ?m) true;
                            Ran rev_parse_cmd (Some ?h);
                            Logged ?d; ?c; Ran _ (Some ?shown); ?u]] =>
           exists d, m, h, shown, rec, recs,
                  (l ++ [e1; e2; e3; e4; e5; e6; e7]);
           apply negb_false_iff, is_str_true in Hb
       end.
  all: split;
    [rewrite logged_app, (logged_ready_queries _ Hq); reflexivity|].
  all: do 2 (split; [reflexivity|]).
  all: split; [rewrite <- app_assoc; reflexivity|].
  all: split; assumption.
Qed.

Lemma run_once_completed_path_witness :
  let run := run_once Demo.env 3 "repo" "root" false (Demo.start true true) in
  exists entry,
    logged (snd run) = [entry] /\ log_status entry = "completed" /\
    commit_sha entry = "c0+1".
Proof.
  intros run.
  destruct (run_once_completed_path Demo.env 3 "repo" "root" false
              (Demo.start true true) (snd (fst run)) (snd run) eq_refl)
    as (entry & message & head_out & shown & rec & recs & before & Hlog &
        Hst & Hsha & Hevs & _).
  exists entry. split; [exact Hlog|]. split; [exact Hst|].
  assert (Hentry : logged (snd run) =
                   [mkEntry "2026-01-01T00:00:00Z" "t1" "parser" "completed"
                            "c0+1"]) by reflexivity.
  rewrite Hentry in Hlog. now injection Hlog as <-.
Defined.







(** X11: what an executor run hands to the agent, and the message of its
    commit, come from the record that the store showed for the selected
    task right after the selection: the agent gets the command built from
    the prompt for that id, title, description and acceptance criteria (a
    missing field reads as the empty text), and the commit message is
    ["feat: "] and the lower-cased title, or ["feat: complete bead task"]
    for an empty title. *)
Theorem run_once_uses_shown_record
        (E : Env) (limit : nat) (repo_root root_id : string) (dry_run : bool)
        (w : W E) (r : result string) (w' : W E) (evs : list event) :
  run_once E limit repo_root root_id dry_run w = (r, w', evs) ->
  (exists cmd ok, In (Dispatched cmd ok) evs) ->
  exists leaf w0 sel out rec recs rest,
    walk E limit root_id w = (Ok (Some leaf), w0, sel) /\
    evs = sel ++ Ran (show_cmd leaf) (Some out) :: rest /\
    json_records E out = Some (rec :: recs) /\
    (forall cmd ok,
        In (Dispatched cmd ok) evs ->
        cmd = build_opencode_command repo_root
                (build_opencode_prompt leaf
                   (get_or_empty (rec_title rec))
                   (get_or_empty (rec_description rec))
                   (get_or_empty (rec_acceptance_criteria rec)))) /\
    (forall cmd ok,
        In (Called cmd ok) evs -> is_commit cmd = true ->
        cmd = commit_cmd (commit_message_for E
                            (get_or_empty (rec_title rec)))).
Proof.
  intros H (cmd0 & ok0 & Hagent). run_once_paths H.
  all: match goal with
       | Hwalk : walk _ _ _ _ = _ |- _ =>
           pose proof (walk_only_queries _ _ _ _ _ _ _ Hwalk) as Hq
       end.
  all: subst evs.
  all: try (which_event Hagent Hq; fail).
  all: match goal with
       | Hwalk : walk _ _ _ _ = (Ok (Some ?leaf), ?w0, ?sel),
         Hj : json_records _ ?out = Some (?rec :: ?recs)
         |- context [?sel ++ Ran (show_cmd ?leaf) (Some ?out) :: ?rest] =>
           exists leaf, w0, sel, out, rec, recs, rest
       end.
  all: split; [reflexivity|].
  all: split; [reflexivity|].
  all: split; [assumption|].
  all: split; intros c ok Hc; [|intros Hcommit];
    which_event Hc Hq; injection Hc as <- <-;
    try reflexivity; try discriminate Hcommit.
  all: unfold commit_message_for;
    match goal with
    | Ht : (get_or_empty _ =? "")%string = _ |- _ => now rewrite Ht
    end.
Qed.

Lemma run_once_uses_shown_record_witness :
  let run := run_once Demo.env 3 "repo" "root" false (Demo.start true true) in
  exists leaf w0 sel out rec recs rest,
    walk Demo.env 3 "root" (Demo.start true true) = (Ok (Some leaf), w0, sel) /\
    snd run = sel ++ Ran (show_cmd leaf) (Some out) :: rest /\
    json_records Demo.env out = Some (rec :: recs) /\
    (forall cmd ok,
        In (Dispatched cmd ok) (snd run) ->
        cmd = build_opencode_command "repo"
                (build_opencode_prompt leaf
                   (get_or_empty (rec_title rec))
                   (get_or_empty (rec_description rec))
                   (get_or_empty (rec_acceptance_criteria rec)))) /\
    (forall cmd ok,
        In (Called cmd ok) (snd run) -> is_commit cmd = true ->
        cmd = commit_cmd (commit_message_for Demo.env
                            (get_or_empty (rec_title rec)))).
Proof.
  intros run.
  apply (run_once_uses_shown_record Demo.env 3 "repo" "root" false
           (Demo.start true true) (fst (fst run)) (snd (fst run)) (snd run)
           eq_refl).
  eexists _, true. vm_compute. do 4 right. left. reflexivity.
Defined.

Lemma commits_app (e1 e2 : list event) :
  commits (e1 ++ e2) = commits e1 ++ commits e2.
Proof. apply filter_app. Qed.

Lemma commits_ready_queries (l : list event) :
  Forall is_ready_query l -> commits l = [].
Proof.
  induction 1 as [|ev l (p & out & ->) Hl IH]; [reflexivity | exact IH].
Qed.

(** X12: however an executor run ends, it has made at most one commit and
    written at most two entries to the audit log, and it has written none
    unless the agent had run to its end. *)
Theorem run_once_effect_bounds
        (E : Env) (limit : nat) (repo_root root_id : string) (dry_run : bool)
        (w : W E) (r : result string) (w' : W E) (evs : list event) :
  run_once E limit repo_root root_id dry_run w = (r, w', evs) ->
  (List.length (commits evs) <= 1)%nat /\
  (List.length (logged evs) <= 2)%nat /\
  (logged evs <> [] -> exists cmd, In (Dispatched cmd true) evs).
Proof.
  intros H. run_once_paths H.
  all: match goal with
       | Hwalk : walk _ _ _ _ = _ |- _ =>
           pose proof (walk_only_queries _ _ _ _ _ _ _ Hwalk) as Hq
       end.
  all: subst evs.
  all: rewrite ?commits_app, ?logged_app,
         ?(commits_ready_queries _ Hq), ?(logged_ready_queries _ Hq).
  all: cbn [commits filter logged flat_map app List.length is_commit
            update_cmd git_add_cmd commit_cmd close_cmd sync_cmd
            String.eqb Ascii.eqb Bool.eqb andb].
  all: split; [lia|]; split; [lia|].
  all: try (intros Hne; now contradiction Hne).
  all: intros _; eexists; apply in_or_app; right; cbn [In];
    do 3 right; left; reflexivity.
Qed.

Lemma run_once_effect_bounds_witness :
  let run := run_once Demo.env 3 "repo" "root" false (Demo.start true false) in
  (List.length (commits (snd run)) <= 1)%nat /\
  (List.length (logged (snd run)) <= 2)%nat /\
  List.length (logged (snd run)) = 2%nat.
Proof.
  intros run.
  pose proof (run_once_effect_bounds Demo.env 3 "repo" "root" false
                (Demo.start true false) (fst (fst run)) (snd (fst run))
                (snd run) eq_refl) as (Hc & Hl & _).
  split; [exact Hc|]. split; [exact Hl | reflexivity].
Defined.

(** ** More on the run loop *)

Section LoopShape.
Variable E : Env.
Variable run_once_runner : string -> string -> bool -> M E string.
Variables repo_root root_id : string.
Variable max_tasks : option Z.
Variable dry_run : bool.

Lemma cons_split_inv (x it : iteration) (tail pre post : list iteration) :
  x :: tail = pre ++ it :: post ->
  (pre = [] /\ it = x /\ post = tail) \/
  (exists pre', pre = x :: pre' /\ tail = pre' ++ it :: post).
Proof.
  destruct pre as [|y pre]; simpl; intros [= -> ->];
    [left; auto | right; now exists pre].
Qed.

Lemma run_loop_from_shape (fuel : nat) :
  forall completed w r w' its,
    run_loop_from E fuel run_once_runner repo_root max_tasks root_id dry_run
                  completed w = (r, w', its) ->
    (forall pre it post,
        its = pre ++ it :: post -> post <> [] ->
        exists o evs, it = (Ok o, evs) /\ o <> "no_tasks" /\ o <> "dry_run") /\
    (r = Raised -> exists pre evs, its = pre ++ [(Raised, evs)]) /\
    (max_tasks = None ->
     forall c, r = Ok c ->
               exists pre o evs,
                 its = pre ++ [(Ok o, evs)] /\
                 (o = "no_tasks" \/ o = "dry_run")).
Proof.
  induction fuel as [|fuel IH]; intros completed w r w' its H.
  { injection H as <- <- <-. split; [|split]; try discriminate.
    intros [|? ?] ? ? ?; discriminate. }
  simpl in H.
  destruct (match max_tasks with Some n => n <=? completed | None => false end)
    eqn:Hcap.
  { injection H as <- <- <-. split; [|split]; try discriminate.
    - intros [|? ?] ? ? ?; discriminate.
    - intros ->. discriminate. }
  destruct (run_once_runner repo_root root_id dry_run w) as [[r1 w1] evs].
  assert (Hsingle : forall x : iteration,
             forall pre it post, [x] = pre ++ it :: post -> post <> [] ->
               exists o evs, it = (Ok o, evs) /\ o <> "no_tasks" /\
                             o <> "dry_run").
  { intros x pre it post Heq Hpost.
    destruct (cons_split_inv _ _ _ _ _ Heq) as [(_ & _ & ->) | (pre' & _ & Hnil)];
      [contradiction | now destruct pre'] . }
  destruct r1 as [outcome| |].
  - destruct (String.eqb outcome "no_tasks") eqn:Hnone.
    { injection H as <- <- <-. apply String.eqb_eq in Hnone. subst outcome.
      split; [apply Hsingle|]. split; [discriminate|].
      intros _ c _. exists [], "no_tasks", evs. auto. }
    destruct (String.eqb outcome "dry_run") eqn:Hdry.
    { injection H as <- <- <-. apply String.eqb_eq in Hdry. subst outcome.
      split; [apply Hsingle|]. split; [discriminate|].
      intros _ c _. exists [], "dry_run", evs. auto. }
    destruct (run_loop_from E fuel run_once_runner repo_root max_tasks root_id
                dry_run
                (if String.eqb outcome "completed" then completed + 1
                 else completed) w1) as [[r2 w2] its'] eqn:Hrec.
    injection H as <- <- <-.
    destruct (IH _ _ _ _ _ Hrec) as (Hmid & Hraise & Hlast).
    apply String.eqb_neq in Hnone, Hdry.
    split; [|split].
    + intros pre it post Heq Hpost.
      destruct (cons_split_inv _ _ _ _ _ Heq)
        as [(_ & -> & _) | (pre' & _ & Htail)];
        [now exists outcome, evs | now apply (Hmid pre' it post)].
    + intros Hr. destruct (Hraise Hr) as (pre & evs' & ->).
      now exists ((Ok outcome, evs) :: pre), evs'.
    + intros Hmax c Hr. destruct (Hlast Hmax c Hr) as (pre & o & evs' & -> & Ho).
      now exists ((Ok outcome, evs) :: pre), o, evs'.
  - injection H as <- <- <-.
    split; [apply Hsingle|]. split; [|discriminate].
    intros _. now exists [], evs.
  - injection H as <- <- <-.
    split; [apply Hsingle|]. split; discriminate.
Qed.

End LoopShape.

(** X13: the loop goes on after every executor call that ended in an
    outcome other than ["no_tasks"] and ["dry_run"], ["blocked"] included,
    and after no other; without [max_tasks] it only returns after a call
    that ended in ["no_tasks"] or in ["dry_run"]. *)
Theorem run_loop_stops_on_no_tasks_or_dry_run
        (E : Env) (run_once_runner : string -> string -> bool -> M E string)
        (fuel : nat) (repo_root : string) (max_tasks : option Z)
        (root_id : string) (dry_run : bool) (w : W E)
        (c : Z) (w' : W E) (its : list iteration) :
  run_loop E fuel run_once_runner repo_root max_tasks root_id dry_run w
  = (Ok c, w', its) ->
  (forall pre it post,
      its = pre ++ it :: post -> post <> [] ->
      exists o evs, it = (Ok o, evs) /\ o <> "no_tasks" /\ o <> "dry_run") /\
  (max_tasks = None ->
   exists pre o evs,
     its = pre ++ [(Ok o, evs)] /\ (o = "no_tasks" \/ o = "dry_run")).
Proof.
  intros H. apply run_loop_from_shape in H.
  destruct H as (Hmid & _ & Hlast).
  split; [exact Hmid|]. intros Hmax. now apply (Hlast Hmax c).
Qed.

Lemma run_loop_stops_on_no_tasks_or_dry_run_witness :
  let run := run_loop Demo.env 5 (run_once Demo.env 3) "repo" None "root"
                      false (Demo.start true true) in
  fst (fst run) = Ok 1 /\
  exists pre o evs,
    snd run = pre ++ [(Ok o, evs)] /\ (o = "no_tasks" \/ o = "dry_run").
Proof.
  intros run. split; [reflexivity|].
  exact (proj2 (run_loop_stops_on_no_tasks_or_dry_run Demo.env
                  (run_once Demo.env 3) 5 "repo" None "root" false
                  (Demo.start true true) 1 (snd (fst run)) (snd run) eq_refl)
               eq_refl).
Defined.

Section LoopRaise.
Variable E : Env.
Variable run_once_runner : string -> string -> bool -> M E string.
Variables repo_root root_id : string.
Variable max_tasks : option Z.
Variable dry_run : bool.

(** The loop whose last executor call raised has raised. *)
Lemma run_loop_from_last_raised (fuel : nat) :
  forall completed w r w' its pre evs,
    run_loop_from E fuel run_once_runner repo_root max_tasks root_id dry_run
                  completed w = (r, w', its) ->
    its = pre ++ [(Raised, evs)] -> r = Raised.
Proof.
  induction fuel as [|fuel IH]; intros completed w r w' its pre evs H Hlast.
  { injection H as <- <- <-. now destruct pre. }
  simpl in H.
  destruct (match max_tasks with Some n => n <=? completed | None => false end).
  { injection H as <- <- <-. now destruct pre. }
  destruct (run_once_runner repo_root root_id dry_run w) as [[r1 w1] evs1].
  assert (Hsingle : forall x : iteration,
             [x] = pre ++ [(Raised, evs)] -> x = (Raised, evs)).
  { intros x Heq.
    destruct (cons_split_inv _ _ _ _ _ Heq)
      as [(_ & -> & _) | (pre' & _ & Hnil)];
      [reflexivity | now destruct pre']. }
  destruct r1 as [outcome| |].
  - destruct (String.eqb outcome "no_tasks").
    { injection H as <- <- <-. apply Hsingle in Hlast.
      discriminate Hlast. }
    destruct (String.eqb outcome "dry_run").
    { injection H as <- <- <-. apply Hsingle in Hlast.
      discriminate Hlast. }
    destruct (run_loop_from E fuel run_once_runner repo_root max_tasks root_id
                dry_run
                (if String.eqb outcome "completed" then completed + 1
                 else completed) w1) as [[r2 w2] its'] eqn:Hrec.
    injection H as <- <- <-.
    destruct (cons_split_inv _ _ _ _ _ Hlast)
      as [(_ & Habs & _) | (pre' & _ & Htail)]; [discriminate Habs|].
    exact (IH _ _ _ _ _ _ _ Hrec Htail).
  - now injection H as <- <- <-.
  - injection H as <- <- <-. apply Hsingle in Hlast.
    discriminate Hlast.
Qed.

End LoopRaise.

(** X14: an exception of the executor ends the loop: the loop raises
    exactly when its last executor call raised, and no call that raised is
    followed by another. *)
Theorem run_loop_propagates_exception
        (E : Env) (run_once_runner : string -> string -> bool -> M E string)
        (fuel : nat) (repo_root : string) (max_tasks : option Z)
        (root_id : string) (dry_run : bool) (w : W E)
        (r : result Z) (w' : W E) (its : list iteration) :
  run_loop E fuel run_once_runner repo_root max_tasks root_id dry_run w
  = (r, w', its) ->
  (r = Raised <-> exists pre evs, its = pre ++ [(Raised, evs)]) /\
  (forall pre evs post, its = pre ++ (Raised, evs) :: post -> post = []).
Proof.
  intros H. pose proof H as Hshape. apply run_loop_from_shape in Hshape.
  destruct Hshape as (Hmid & Hraise & _).
  split; [split; [exact Hraise|]|].
  - intros (pre & evs & Hlast).
    exact (run_loop_from_last_raised E run_once_runner repo_root root_id
             max_tasks dry_run fuel 0 w r w' its pre evs H Hlast).
  - intros pre evs post Heq. destruct post as [|p post]; [reflexivity|].
    destruct (Hmid pre (Raised, evs) (p :: post) Heq) as (o & e & Habs & _);
      discriminate.
Qed.

Lemma run_loop_propagates_exception_witness :
  let run := run_loop Demo.env 5 always_raising "repo" None "root" false
                      (Demo.start true true) in
  fst (fst run) = Raised /\
  exists pre evs, snd run = pre ++ [(Raised, evs)].
Proof.
  intros run. split; [reflexivity|].
  exact (proj1 (proj1 (run_loop_propagates_exception Demo.env always_raising
                         5 "repo" None "root" false (Demo.start true true)
                         (fst (fst run)) (snd (fst run)) (snd run) eq_refl))
               eq_refl).
Defined.

(** X15: the loop has no bound of its own: with an executor whose every
    call ends in an outcome other than ["no_tasks"], ["completed"] and
    ["dry_run"] (such as ["blocked"]), and with no cap or a cap above 0, the
    loop does not return, whatever the number of iterations allowed. *)
Theorem run_loop_never_stops_on_blocked
        (E : Env) (run_once_runner : string -> string -> bool -> M E string)
        (repo_root : string) (max_tasks : option Z) (root_id : string)
        (dry_run : bool) :
  (forall w, exists o w1 evs,
        run_once_runner repo_root root_id dry_run w = (Ok o, w1, evs) /\
        o <> "no_tasks" /\ o <> "completed" /\ o <> "dry_run") ->
  (forall N, max_tasks = Some N -> 0 < N) ->
  forall fuel w,
    fst (fst (run_loop E fuel run_once_runner repo_root max_tasks root_id
                       dry_run w)) = OutOfFuel.
Proof.
  intros Hrun Hcap fuel. unfold run_loop.
  induction fuel as [|fuel IH]; intros w; [reflexivity|].
  simpl.
  assert (Hopen : match max_tasks with
                  | Some n => n <=? 0
                  | None => false
                  end = false).
  { destruct max_tasks as [N|]; [|reflexivity].
    apply Z.leb_gt. now apply Hcap. }
  rewrite Hopen.
  destruct (Hrun w) as (o & w1 & evs & -> & Hn & Hc & Hd).
  apply String.eqb_neq in Hn, Hc, Hd. rewrite Hn, Hc, Hd.
  specialize (IH w1).
  destruct (run_loop_from E fuel run_once_runner repo_root max_tasks root_id
              dry_run 0 w1) as [[r2 w2] its].
  exact IH.
Qed.

Lemma run_loop_never_stops_on_blocked_witness :
  fst (fst (run_loop Demo.env 40 always_blocked "repo" (Some 1) "root" false
                     (Demo.start true true))) = OutOfFuel.
Proof.
  apply (run_loop_never_stops_on_blocked Demo.env always_blocked "repo"
           (Some 1) "root" false).
  - intros w. exists "blocked", w, []. repeat split; discriminate.
  - intros N [= <-]. lia.
Defined.

Section LoopExact.
Variable E : Env.
Variable run_once_runner : string -> string -> bool -> M E string.
Variables repo_root root_id : string.
Variable dry_run : bool.
Variable N : Z.
Hypothesis Hdone :
  forall w, exists w1 evs,
    run_once_runner repo_root root_id dry_run w = (Ok "completed", w1, evs).

Lemma run_loop_from_exact (k : nat) :
  forall fuel completed w,
    completed + Z.of_nat k = N -> (k < fuel)%nat ->
    exists w' its,
      run_loop_from E fuel run_once_runner repo_root (Some N) root_id
                    dry_run completed w = (Ok N, w', its) /\
      List.length its = k.
Proof.
  induction k as [|k IH]; intros fuel completed w Hsum Hfuel;
    (destruct fuel as [|fuel]; [lia|]); simpl.
  - assert (Hc : (N <=? completed) = true) by (apply Z.leb_le; lia).
    rewrite Hc. exists w, []. split; [f_equal; f_equal; f_equal; lia|].
    reflexivity.
  - assert (Hc : (N <=? completed) = false) by (apply Z.leb_gt; lia).
    rewrite Hc. destruct (Hdone w) as (w1 & evs & ->). simpl.
    destruct (IH fuel (completed + 1) w1) as (w' & its & -> & Hlen);
      [lia | lia |].
    exists w', ((Ok "completed", evs) :: its). split; [reflexivity|].
    simpl. now rewrite Hlen.
Qed.

End LoopExact.

(** X16: with [max_tasks = N], [N >= 0] and an executor whose every call
    ends in ["completed"], the loop returns exactly [N] after exactly [N]
    executor calls. *)
Theorem run_loop_reaches_cap
        (E : Env) (run_once_runner : string -> string -> bool -> M E string)
        (fuel : nat) (repo_root : string) (N : Z) (root_id : string)
        (dry_run : bool) (w : W E) :
  (forall w0, exists w1 evs,
        run_once_runner repo_root root_id dry_run w0
        = (Ok "completed", w1, evs)) ->
  0 <= N -> (Z.to_nat N < fuel)%nat ->
  exists w' its,
    run_loop E fuel run_once_runner repo_root (Some N) root_id dry_run w
    = (Ok N, w', its) /\
    List.length its = Z.to_nat N.
Proof.
  intros Hdone HN Hfuel. unfold run_loop.
  apply run_loop_from_exact; [exact Hdone | lia | exact Hfuel].
Qed.

Lemma run_loop_reaches_cap_witness :
  exists w' its,
    run_loop Demo.env 4 Demo.always_completed "repo" (Some 3) "root" false
             (Demo.start true true) = (Ok 3, w', its) /\
    List.length its = Z.to_nat 3.
Proof.
  apply (run_loop_reaches_cap Demo.env Demo.always_completed 4 "repo" 3
           "root" false (Demo.start true true)).
  - intros w0. now exists w0, [].
  - lia.
  - simpl. lia.
Defined.

(** ** The environment of the agent *)

Lemma dict_get_set_same (d : dict) (k v : string) :
  dict_get (dict_set d k v) k = Some v.
Proof.
  induction d as [|[k' v'] d IH]; simpl.
  - now rewrite String.eqb_refl.
  - destruct (String.eqb k' k) eqn:Hk; simpl.
    + now rewrite String.eqb_refl.
    + now rewrite Hk.
Qed.

Lemma dict_get_set_other (d : dict) (k v k' : string) :
  k <> k' -> dict_get (dict_set d k v) k' = dict_get d k'.
Proof.
  intros Hne. induction d as [|[k0 v0] d IH]; simpl.
  - apply String.eqb_neq in Hne. now rewrite Hne.
  - destruct (String.eqb k0 k) eqn:Hk; simpl.
    + apply String.eqb_eq in Hk. subst k0.
      apply String.eqb_neq in Hne. now rewrite Hne.
    + now rewrite IH.
Qed.

Lemma flagged_flags (d : dict) (k : string) :
  In k flag_keys -> dict_get (flagged d) k = Some "true".
Proof.
  unfold flagged, flag_keys. simpl.
  intros [<- | [<- | [<- | [<- | [<- | []]]]]];
    repeat first [ apply dict_get_set_same
                 | rewrite dict_get_set_other by discriminate ].
Qed.

Lemma flagged_other (d : dict) (k : string) :
  ~ In k flag_keys -> dict_get (flagged d) k = dict_get d k.
Proof.
  unfold flagged, flag_keys. simpl. intros Hk.
  repeat rewrite dict_get_set_other by (intros <-; apply Hk; tauto).
  reflexivity.
Qed.

(** Case analysis on every step of a [build_opencode_env] in [H]. *)
Ltac build_env_paths H :=
  unfold build_opencode_env, make_dir in H;
  repeat step_in H; finish_in H.

(** X17: in the environment that [build_opencode_env] returns, the four
    [OPENCODE_DISABLE_*] switches and [CI] are ["true"] whatever the base
    environment said; [XDG_CONFIG_HOME] is the config root when one is
    given; and with a config directory, [OPENCODE_CONFIG_DIR] is that
    directory, [OPENCODE_CONFIG] the file [opencode.json] in it and
    [OPENCODE_CONFIG_CONTENT] the empty JSON object. *)
Theorem build_opencode_env_settings
        (F : Files) (environ : dict) (base_env : option dict)
        (config_root config_dir : option string) (fs fs' : FS F)
        (env : dict) (evs : list fs_event) :
  build_opencode_env F environ base_env config_root config_dir fs
  = (Ok env, fs', evs) ->
  (forall k, In k flag_keys -> dict_get env k = Some "true") /\
  (forall root, config_root = Some root ->
                dict_get env "XDG_CONFIG_HOME" = Some root) /\
  (forall dir, config_dir = Some dir ->
               dict_get env "OPENCODE_CONFIG_DIR" = Some dir /\
               dict_get env "OPENCODE_CONFIG"
               = Some (joinpath F dir "opencode.json") /\
               dict_get env "OPENCODE_CONFIG_CONTENT" = Some "{}").
Proof.
  intros H. build_env_paths H; try discriminate Hres.
  all: injection Hres as <-.
  all: split;
    [ intros k Hk;
      repeat rewrite dict_get_set_other
        by (intros <-; unfold flag_keys in Hk; simpl in Hk;
            intuition discriminate);
      now apply flagged_flags |].
  all: split;
    [ intros root' Hroot; try discriminate Hroot; injection Hroot as <-;
      repeat first [ apply dict_get_set_same
                   | rewrite dict_get_set_other by discriminate ] |].
  all: intros dir' Hdir; try discriminate Hdir; injection Hdir as <-.
  all: repeat split;
    repeat first [ apply dict_get_set_same
                 | rewrite dict_get_set_other by discriminate ].
Qed.

Lemma build_opencode_env_settings_witness :
  let run := build_opencode_env plain_files [("CI", "false")]
               (Some [("CI", "no"); ("HOME", "/home/u")])
               (Some "/cfg") (Some "/cfg/opencode") [] in
  exists env,
    fst (fst run) = Ok env /\
    dict_get env "CI" = Some "true" /\
    dict_get env "XDG_CONFIG_HOME" = Some "/cfg" /\
    dict_get env "OPENCODE_CONFIG" = Some "/cfg/opencode/opencode.json".
Proof.
  intros run.
  assert (Hrun : exists env, fst (fst run) = Ok env) by (eexists; reflexivity).
  destruct Hrun as [env Henv]. exists env. split; [exact Henv|].
  destruct (build_opencode_env_settings plain_files [("CI", "false")]
              (Some [("CI", "no"); ("HOME", "/home/u")])
              (Some "/cfg") (Some "/cfg/opencode") [] (snd (fst run)) env
              (snd run))
    as (Hflags & Hroot & Hdir).
  - rewrite <- Henv. reflexivity.
  - split; [apply Hflags; simpl; tauto|].
    split; [now apply Hroot|].
    exact (proj1 (proj2 (Hdir "/cfg/opencode" eq_refl))).
Defined.

(** X18: [build_opencode_env] starts from [base_env], or from the process
    environment when [base_env] is missing or empty, and leaves every
    variable it does not set as it was there: every key other than the five
    switches, [XDG_CONFIG_HOME] when a config root is given, and the three
    [OPENCODE_CONFIG*] keys when a config directory is given. *)
Theorem build_opencode_env_keeps_other_variables
        (F : Files) (environ : dict) (base_env : option dict)
        (config_root config_dir : option string) (fs fs' : FS F)
        (env : dict) (evs : list fs_event) (k : string) :
  build_opencode_env F environ base_env config_root config_dir fs
  = (Ok env, fs', evs) ->
  ~ In k flag_keys ->
  (config_root = None \/ k <> "XDG_CONFIG_HOME") ->
  (config_dir = None \/ ~ In k config_keys) ->
  dict_get env k
  = dict_get (match base_env with
              | None | Some [] => environ
              | Some d => d
              end) k.
Proof.
  intros H Hflag Hroot Hdir. build_env_paths H; try discriminate Hres.
  all: injection Hres as <-.
  all: destruct Hroot as [Hroot | Hroot]; try discriminate Hroot.
  all: destruct Hdir as [Hdir | Hdir]; try discriminate Hdir.
  all: repeat rewrite dict_get_set_other
         by (intros <-; first [ now apply Hroot
                              | apply Hdir; unfold config_keys; simpl; tauto ]).
  all: now apply flagged_other.
Qed.

Lemma build_opencode_env_keeps_other_variables_witness :
  let run := build_opencode_env plain_files [("PATH", "/bin")] (Some [])
               None None [] in
  exists env, fst (fst run) = Ok env /\ dict_get env "PATH" = Some "/bin".
Proof.
  intros run.
  assert (Hrun : exists env, fst (fst run) = Ok env) by (eexists; reflexivity).
  destruct Hrun as [env Henv]. exists env. split; [exact Henv|].
  apply (build_opencode_env_keeps_other_variables plain_files
           [("PATH", "/bin")] (Some []) None None [] (snd (fst run)) env
           (snd run) "PATH").
  - rewrite <- Henv. reflexivity.
  - unfold flag_keys. simpl. intuition discriminate.
  - now left.
  - now left.
Defined.

(** X19: [build_opencode_env] never overwrites the config file: it writes
    nothing without a config directory, and with one it writes at most once,
    the text of an empty JSON object to [opencode.json] in that directory,
    and only when the existence test just before said that the file is not
    there; when it returns without having written, that test said the file
    is there. *)
Theorem build_opencode_env_keeps_config_file
        (F : Files) (environ : dict) (base_env : option dict)
        (config_root config_dir : option string) (fs fs' : FS F)
        (r : result dict) (evs : list fs_event) :
  build_opencode_env F environ base_env config_root config_dir fs
  = (r, fs', evs) ->
  (config_dir = None -> writes evs = []) /\
  (forall dir,
      config_dir = Some dir ->
      (writes evs = [] /\
       (forall env, r = Ok env ->
                    path_exists F (joinpath F dir "opencode.json") fs'
                    = Some true))
      \/
      (exists fs1 ok,
          writes evs = [Wrote (joinpath F dir "opencode.json") "{}" ok] /\
          path_exists F (joinpath F dir "opencode.json") fs1 = Some false /\
          write_text F (joinpath F dir "opencode.json") "{}" fs1 = (ok, fs'))).
Proof.
  intros H. build_env_paths H.
  all: subst evs r; try subst fs'.
  all: split; [intros Hnone; try discriminate Hnone; reflexivity|].
  all: intros dir' Hdir;
    first [discriminate Hdir | injection Hdir as <- | subst config_dir].
  all: first
         [ left; split; [reflexivity|];
           intros env Henv; try discriminate Henv; assumption
         | right;
           match goal with
           | Hex : path_exists _ _ ?fs1 = Some false,
             Hw : write_text _ _ _ ?fs1 = (?ok, _) |- _ =>
               exists fs1, ok; repeat split; assumption
           end ].
Qed.

Lemma build_opencode_env_keeps_config_file_witness :
  let kept := build_opencode_env plain_files [] None None (Some "/c")
                [("/c/opencode.json", "kept")] in
  writes (snd kept) = [] /\
  snd (fst kept) = [("/c/opencode.json", "kept")].
Proof.
  intros kept.
  destruct (proj2 (build_opencode_env_keeps_config_file plain_files [] None
                     None (Some "/c")
                     [("/c/opencode.json", "kept")]
                     (snd (fst kept)) (fst (fst kept)) (snd kept) eq_refl)
                  "/c" eq_refl)
    as [[Hw _] | (fs1 & ok & Hw & _)].
  - split; [exact Hw | reflexivity].
  - discriminate Hw.
Defined.



(** X21: an executor run that ends in ["blocked"] has logged it and told
    the store: its last two steps are an audit entry with status
    ["blocked"] and [bd update <id> --status blocked] for the task of that
    entry; the entry is the only one, or follows a ["completed"] entry for
    the same task and commit. *)
Theorem run_once_blocked_is_logged_and_reported
        (E : Env) (limit : nat) (repo_root root_id : string) (dry_run : bool)
        (w : W E) (w' : W E) (evs : list event) :
  run_once E limit repo_root root_id dry_run w = (Ok "blocked", w', evs) ->
  exists entry before,
    evs = before ++ [Logged entry;
                     Called (update_cmd (issue_id entry) "blocked") true] /\
    log_status entry = "blocked" /\
    (logged evs = [entry] \/
     exists done,
       logged evs = [done; entry] /\ log_status done = "completed" /\
       issue_id done = issue_id entry /\ commit_sha done = commit_sha entry).
Proof.
  intros H. run_once_paths H; try discriminate Hres.
  all: match goal with
       | Hwalk : walk _ _ _ _ = _ |- _ =>
           pose proof (walk_only_queries _ _ _ _ _ _ _ Hwalk) as Hq
       end.
  all: subst evs.
  all: match goal with
       | |- context [?l ++ ?tail] =>
           match tail with
           | context [[Logged ?e; Called _ true]] =>
               exists e, (l ++ removelast (removelast tail))
           end
       end.
  all: split; [rewrite <- app_assoc; reflexivity|].
  all: split; [reflexivity|].
  all: rewrite logged_app, (logged_ready_queries _ Hq).
  all: first [ left; reflexivity
             | right; eexists; repeat split; reflexivity ].
Qed.

Lemma run_once_blocked_is_logged_and_reported_witness :
  let run := run_once Demo.env 3 "repo" "root" false (Demo.start false true) in
  exists entry before,
    snd run = before ++ [Logged entry;
                         Called (update_cmd (issue_id entry) "blocked") true] /\
    log_status entry = "blocked".
Proof.
  intros run.
  destruct (run_once_blocked_is_logged_and_reported Demo.env 3 "repo" "root"
              false (Demo.start false true) (snd (fst run)) (snd run) eq_refl)
    as (entry & before & Hevs & Hst & _).
  now exists entry, before.
Defined.

(** X22: the preview of a dry run is the command of the real run: when a
    dry run from some state of the collaborators ends in ["dry_run"], its
    last three prints are the task line, the prompt and the command line,
    and a run from the same state without [dry_run] that gets to dispatch
    the agent hands it exactly that prompt in exactly that command. *)
Theorem dry_run_previews_the_dispatched_command
        (E : Env) (limit : nat) (repo_root root_id : string) (w : W E)
        (w1 : W E) (evs1 : list event)
        (r2 : result string) (w2 : W E) (evs2 : list event) :
  run_once E limit repo_root root_id true w = (Ok "dry_run", w1, evs1) ->
  run_once E limit repo_root root_id false w = (r2, w2, evs2) ->
  exists before task_line prompt,
    evs1 = before ++
           [Printed task_line; Printed prompt;
            Printed ("Command: " ++
                     String.concat " "
                       (build_opencode_command repo_root prompt))%string] /\
    forall cmd ok,
      In (Dispatched cmd ok) evs2 ->
      cmd = build_opencode_command repo_root prompt.
Proof.
  intros H1 H2.
  unfold run_once, select_first_open_leaf_task_id, bind, run_command,
    run_call, run_agent, log_completion, first_record, print, ret, raise
    in H1, H2.
  repeat step_in H1; finish_in H1; try discriminate Hres.
  all: repeat step_in H2; finish_in H2.
  all: match goal with
       | Hwalk : walk _ _ _ _ = _ |- _ =>
           pose proof (walk_only_queries _ _ _ _ _ _ _ Hwalk) as Hq
       end.
  all: subst evs1 evs2.
  all: match goal with
       | |- context [?l ++ [?e1; Printed ?t; Printed ?p; Printed _]] =>
           exists (l ++ [e1]), t, p
       end.
  all: split; [rewrite <- app_assoc; reflexivity|].
  all: intros c ok Hc; which_event Hc Hq; injection Hc as <- <-; reflexivity.
Qed.

Lemma dry_run_previews_the_dispatched_command_witness :
  let dry := run_once Demo.env 3 "repo" "root" true (Demo.start true true) in
  let real := run_once Demo.env 3 "repo" "root" false (Demo.start true true) in
  exists before task_line prompt,
    snd dry = before ++
              [Printed task_line; Printed prompt;
               Printed ("Command: " ++
                        String.concat " "
                          (build_opencode_command "repo" prompt))%string] /\
    forall cmd ok,
      In (Dispatched cmd ok) (snd real) ->
      cmd = build_opencode_command "repo" prompt.
Proof.
  intros dry real.
  exact (dry_run_previews_the_dispatched_command Demo.env 3 "repo" "root"
           (Demo.start true true) (snd (fst dry)) (snd dry)
           (fst (fst real)) (snd (fst real)) (snd real) eq_refl eq_refl).
Defined.

(** X23: the id-based walker does nothing but ask the store for children:
    every event of a walk is a [bd ready --parent <id> --json] query, and
    every id it asks about is the root or the id of an item that the store
    reported, during this walk, as an open epic. *)
Theorem walk_descends_into_open_epics_only
        (E : Env) (limit : nat) :
  forall root w r w' evs,
    select_first_open_leaf_task_id E limit root w = (r, w', evs) ->
    Forall is_ready_query evs /\
    forall parent out,
      In (Ran (ready_cmd parent) out) evs ->
      parent = root \/
      exists n, In n (reported E evs) /\ node_id n = Some parent /\
                status n = Some "open" /\ issue_type n = Some "epic".
Proof.
  unfold select_first_open_leaf_task_id.
  intros root w r w' evs H.
  split; [now apply walk_only_queries in H|].
  revert root w r w' evs H.
  induction limit as [|limit IH]; intros root w r w' evs H parent out Hin.
  { injection H as <- <- <-. contradiction. }
  assert (Hscan : forall l w1 r1 w2 e2,
             walk_scan E limit l w1 = (r1, w2, e2) ->
             In (Ran (ready_cmd parent) out) e2 ->
             exists n, (In n l \/ In n (reported E e2)) /\
                       node_id n = Some parent /\
                       status n = Some "open" /\ issue_type n = Some "epic").
  { induction l as [|item rest IHl]; intros w1 r1 w2 e2 Hk Hq.
    { injection Hk as <- <- <-. contradiction. }
    simpl in Hk.
    assert (Hskip : forall w0,
               walk_scan E limit rest w0 = (r1, w2, e2) ->
               exists n, (In n (item :: rest) \/ In n (reported E e2)) /\
                         node_id n = Some parent /\
                         status n = Some "open" /\
                         issue_type n = Some "epic").
    { intros w0 H0. destruct (IHl _ _ _ _ H0 Hq) as (n & [Hn | Hn] & Hrest);
        exists n; (split; [|exact Hrest]); [left; now right | now right]. }
    destruct (is_str (status item) "open") eqn:Hopen; simpl in Hk;
      [|now apply Hskip in Hk].
    destruct (node_id item) as [i|] eqn:Hid; [|now apply Hskip in Hk].
    destruct (String.eqb i ""); [now apply Hskip in Hk|].
    destruct (is_str (issue_type item) "task").
    { injection Hk as <- <- <-. contradiction. }
    destruct (is_str (issue_type item) "epic") eqn:Hepic;
      [|now apply Hskip in Hk].
    assert (Hsub : forall e3 r3 w3,
               walk E limit i w1 = (r3, w3, e3) ->
               In (Ran (ready_cmd parent) out) e3 ->
               exists n, (In n (item :: rest) \/ In n (reported E e3)) /\
                         node_id n = Some parent /\
                         status n = Some "open" /\
                         issue_type n = Some "epic").
    { intros e3 r3 w3 Hw Hq3.
      destruct (IH _ _ _ _ _ Hw parent out Hq3) as [-> | (n & Hn & Hrest)].
      - exists item. split; [left; now left|]. split; [exact Hid|].
        split; now apply is_str_true.
      - exists n. split; [now right | exact Hrest]. }
    apply bind_inv in Hk.
    destruct Hk as [(leaf & w3 & e3 & e4 & Hw & Hk & ->) | [[Hw _] | [Hw _]]];
      [|now apply (Hsub _ _ _ Hw)..].
    rewrite reported_app. apply in_app_or in Hq. destruct Hq as [Hq | Hq].
    - destruct (Hsub _ _ _ Hw Hq) as (n & [Hn | Hn] & Hrest);
        exists n; (split; [|exact Hrest]);
        [now left | right; apply in_or_app; now left].
    - destruct (truthy leaf).
      + injection Hk as <- <- <-. contradiction.
      + destruct (IHl _ _ _ _ Hk Hq) as (n & [Hn | Hn] & Hrest);
          exists n; (split; [|exact Hrest]);
          [left; now right | right; apply in_or_app; now right]. }
  rewrite walk_S in H. apply bind_inv in H.
  assert (Hfirst : forall r0 w0 e0,
             load_children E root w = (r0, w0, e0) ->
             In (Ran (ready_cmd parent) out) e0 -> parent = root).
  { intros r0 w0 e0 Hl Hq. apply load_children_inv in Hl.
    destruct Hl as (out0 & _ & -> & _).
    destruct Hq as [Hq | []]. now injection Hq as <- _. }
  destruct H as [(items & w1 & e1 & e2 & Hl & Hk & ->) | [[Hl _] | [Hl _]]];
    [|left; now apply (Hfirst _ _ _ Hl)..].
  apply in_app_or in Hin. destruct Hin as [Hin | Hin];
    [left; now apply (Hfirst _ _ _ Hl)|].
  right. destruct (Hscan _ _ _ _ _ Hk Hin) as (n & Hn & Hrest).
  exists n. split; [|exact Hrest].
  rewrite reported_app. apply in_or_app.
  destruct Hn as [Hn | Hn]; [left | now right].
  apply (proj1 (sorted_items_in _ _)) in Hn.
  apply load_children_inv in Hl. destruct Hl as (out0 & _ & -> & Hr).
  destruct out0 as [text|]; [|discriminate].
  destruct (json_items E text) as [items'|] eqn:Hjson; [|discriminate].
  injection Hr as ->. cbn. now rewrite Hjson, app_nil_r.
Qed.

Lemma walk_descends_into_open_epics_only_witness :
  let run := select_first_open_leaf_task_id (tree_store "root" sample_tree) 3
               "root" tt in
  snd run = [Ran (ready_cmd "root") (Some "root");
             Ran (ready_cmd "e1") (Some "e1")] /\
  Forall is_ready_query (snd run).
Proof.
  intros run. split; [reflexivity|].
  exact (proj1 (walk_descends_into_open_epics_only
                  (tree_store "root" sample_tree) 3 "root" tt
                  (fst (fst run)) (snd (fst run)) (snd run) eq_refl)).
Defined.
